(** * The Imager editor (a6editor.py): pixel-grid transforms and the
      steganographic text channel

    A shallow embedding of [Editor] from [src/imager/a6editor.py].  Python
    integers are [Z]; a Python [str] is the list of its code points; the
    methods that read or write the current image run in a state-and-exception
    monad over that image; the helpers that touch no image are functions into
    [res]. *)

From Stdlib Require Import ZArith Lia.
From Stdlib Require Import Floats.PrimFloat Floats.FloatOps Floats.SpecFloat.
From Stdlib Require Import Numbers.Cyclic.Int63.Uint63.
From stdpp Require Import base tactics option list list_numbers.

Local Open Scope Z_scope.

(** ** Python values and builtins *)

(** The exceptions that the modelled code can raise. *)
Inductive exn : Type :=
  | AssertionError
  | ValueError
  | IndexError
  | ZeroDivisionError.

Definition exn_eqb (a b : exn) : bool :=
  match a, b with
  | AssertionError, AssertionError
  | ValueError, ValueError
  | IndexError, IndexError
  | ZeroDivisionError, ZeroDivisionError => true
  | _, _ => false
  end.

(** The outcome of a call: a value, or a raised exception. *)
Inductive res (A : Type) : Type :=
  | Ok (a : A)
  | Raise (e : exn).
Arguments Ok {A} a.
Arguments Raise {A} e.

Definition res_bind {A B : Type} (r : res A) (k : A → res B) : res B :=
  match r with
  | Ok a => k a
  | Raise e => Raise e
  end.

#[global] Instance res_ret : MRet res := @Ok.
#[global] Instance res_mbind : MBind res := λ A B k r, res_bind r k.

(** [assert c] *)
Definition assert_ (c : bool) : res unit :=
  if c then Ok tt else Raise AssertionError.

(** A [str] is the sequence of its code points; [ord] and [chr] are then the
    identity, [chr] raising [ValueError] outside [range(0x110000)]. *)
Definition pystr : Type := list Z.

Definition ord (c : Z) : Z := c.

Definition chr (x : Z) : res Z :=
  if (0 <=? x) && (x <? 1114112) then Ok x else Raise ValueError.

(** [len(l)] *)
Definition len {A : Type} (l : list A) : Z := Z.of_nat (length l).

(** [range(n)], [range(a, b)] and [range(a, b, step)] for a positive step. *)
Definition range (n : Z) : list Z := seqZ 0 n.
Definition range2 (a b : Z) : list Z := seqZ a (b - a).
Definition range3 (a b step : Z) : list Z :=
  (λ i, a + i * step) <$> seqZ 0 ((b - a + step - 1) / step).

(** [l[i]], with Python's negative indices and [IndexError]. *)
Definition py_getitem {A : Type} (l : list A) (i : Z) : res A :=
  let j := if i <? 0 then i + len l else i in
  if (0 <=? j) && (j <? len l) then
    match l !! Z.to_nat j with
    | Some a => Ok a
    | None => Raise IndexError
    end
  else Raise IndexError.

(** [l[a:b]]: a bound below zero counts from the end, and both bounds are
    clamped to the list. *)
Definition slice_bound (n i : Z) : Z :=
  if i <? 0 then Z.max 0 (i + n) else Z.min i n.

Definition py_slice {A : Type} (l : list A) (a b : Z) : list A :=
  let a' := slice_bound (len l) a in
  let b' := slice_bound (len l) b in
  take (Z.to_nat (b' - a')) (drop (Z.to_nat a') l).

(** [l.index(v)]: the first position of [v], or [ValueError]. *)
Fixpoint list_index (l : list Z) (v : Z) : res Z :=
  match l with
  | [] => Raise ValueError
  | x :: rest => if x =? v then Ok 0 else res_bind (list_index rest v) (λ i, Ok (i + 1))
  end.

(** [str(n)] for an integer: the decimal digits, most significant first, with
    a leading minus sign for a negative number.  The fuel bounds the number of
    digits: a number has no more decimal digits than binary ones. *)
Fixpoint str_digits (fuel : nat) (n : Z) (acc : pystr) : pystr :=
  match fuel with
  | O => acc
  | S fuel' =>
      let acc' := (48 + n mod 10) :: acc in
      if n / 10 =? 0 then acc' else str_digits fuel' (n / 10) acc'
  end.

Definition digits_fuel (n : Z) : nat := S (Z.to_nat (Z.log2 n)).

Definition str_int (n : Z) : pystr :=
  if n <? 0 then 45 :: str_digits (digits_fuel (- n)) (- n) []
  else str_digits (digits_fuel n) n [].

(** [int(s)] for a string: optional white space, an optional sign, decimal
    digits with single underscores between them, optional white space.
    White space is what CPython accepts here: TAB..CR and SPACE, and the
    Unicode spaces above U+007E (the separators U+001C..U+001F are not).
    The decimal digits of other scripts start at U+0660; the strings parsed
    in this program are made of channel-digit numbers, which are below 1000,
    so only the ASCII digits are modelled. *)
Definition is_space (c : Z) : bool :=
  ((9 <=? c) && (c <=? 13)) || (c =? 32) || (c =? 133) || (c =? 160)
  || (c =? 5760) || ((8192 <=? c) && (c <=? 8202)) || (c =? 8232) || (c =? 8233)
  || (c =? 8239) || (c =? 8287) || (c =? 12288).

Definition is_digit (c : Z) : bool := (48 <=? c) && (c <=? 57).

Fixpoint skip_spaces (s : pystr) : pystr :=
  match s with
  | c :: rest => if is_space c then skip_spaces rest else s
  | [] => []
  end.

(** Scans the digits after the first one; [prev_us] tells that the previous
    character was an underscore.  Returns the value and what follows. *)
Fixpoint scan_digits (acc : Z) (prev_us : bool) (s : pystr) : option (Z * pystr) :=
  match s with
  | c :: rest =>
      if is_digit c then scan_digits (10 * acc + (c - 48)) false rest
      else if c =? 95 then
        if prev_us then None else scan_digits acc true rest
      else if prev_us then None else Some (acc, s)
  | [] => if prev_us then None else Some (acc, [])
  end.

Definition py_int (s : pystr) : res Z :=
  let s1 := skip_spaces s in
  let '(neg, s2) :=
    match s1 with
    | c :: rest =>
        if c =? 43 then (false, rest)
        else if c =? 45 then (true, rest)
        else (false, s1)
    | [] => (false, s1)
    end in
  match s2 with
  | c :: _ =>
      if is_digit c then
        match scan_digits 0 false s2 with
        | Some (v, rest) =>
            match skip_spaces rest with
            | [] => Ok (if neg then - v else v)
            | _ :: _ => Raise ValueError
            end
        | None => Raise ValueError
        end
      else Raise ValueError
  | [] => Raise ValueError
  end.

(** A Python double is an IEEE 754 binary64, which is what [PrimFloat.float]
    is.  [float(n)] for an integer below [2^63] in absolute value; [a / b] on
    integers is the correctly rounded quotient, that is the division of the
    two doubles when both integers are below [2^53]; [int(f)] truncates
    towards zero. *)
Definition float_of_int (z : Z) : float :=
  if z <? 0 then PrimFloat.opp (PrimFloat.of_uint63 (Uint63.of_Z (- z)))
  else PrimFloat.of_uint63 (Uint63.of_Z z).

Definition true_div (a b : Z) : res float :=
  if b =? 0 then Raise ZeroDivisionError
  else Ok (PrimFloat.div (float_of_int a) (float_of_int b)).

Definition int_of_float (f : float) : Z :=
  match Prim2SF f with
  | S754_finite s m e =>
      let v := if 0 <=? e then Z.pos m * 2 ^ e else Z.pos m / 2 ^ (- e) in
      if s then - v else v
  | _ => 0
  end.

(** ** The image (a6image.Image) *)

Abbreviation pixel := (Z * Z * Z)%type.

(** Modelled from the spec: [a6image.py] is not among the sources.  The spec
    gives the pixel grid as a width, a height and a row-major sequence of
    (r,g,b) triples with every channel in [0,255], addressed by (row, col) or
    by the flat index [row*width+col], with [len(pixels) == width*height] at
    all times.  The editor calls it through [getWidth], [getHeight],
    [getLength], [getPixel], [setPixel], [getFlatPixel], [setFlatPixel],
    [setWidth] and [copy].  An access outside the grid raises
    [AssertionError] (this is what [_avgRGB] catches), and a pixel that is
    not a triple of channels in [0,255] is rejected in the same way.
    [setWidth] is the resize of the spec: it keeps the pixels and derives the
    height from the new width, so that the invariant is preserved. *)
Module Image.

Record t : Type := mk { width : Z; height : Z; data : list pixel }.

Definition is_channel (c : Z) : bool := (0 <=? c) && (c <=? 255).

Definition is_pixel (p : pixel) : bool :=
  let '(r, g, b) := p in is_channel r && is_channel g && is_channel b.

Definition getWidth (im : t) : Z := width im.
Definition getHeight (im : t) : Z := height im.
Definition getLength (im : t) : Z := len (data im).

Definition read (im : t) (i : Z) : res pixel :=
  match data im !! Z.to_nat i with
  | Some p => Ok p
  | None => Raise IndexError
  end.

Definition write (im : t) (i : Z) (p : pixel) : t :=
  mk (width im) (height im) (<[Z.to_nat i := p]> (data im)).

Definition in_grid (im : t) (row col : Z) : bool :=
  (0 <=? row) && (row <? height im) && (0 <=? col) && (col <? width im).

Definition in_flat (im : t) (pos : Z) : bool :=
  (0 <=? pos) && (pos <? getLength im).

Definition getPixel (im : t) (row col : Z) : res pixel :=
  if in_grid im row col then read im (row * width im + col)
  else Raise AssertionError.

Definition setPixel (im : t) (row col : Z) (p : pixel) : res t :=
  if in_grid im row col && is_pixel p then Ok (write im (row * width im + col) p)
  else Raise AssertionError.

Definition getFlatPixel (im : t) (pos : Z) : res pixel :=
  if in_flat im pos then read im pos else Raise AssertionError.

Definition setFlatPixel (im : t) (pos : Z) (p : pixel) : res t :=
  if in_flat im pos && is_pixel p then Ok (write im pos p)
  else Raise AssertionError.

Definition setWidth (im : t) (value : Z) : res t :=
  if (0 <? value) && (getLength im mod value =? 0)
  then Ok (mk value (getLength im / value) (data im))
  else Raise AssertionError.

Definition copy (im : t) : t := im.

(** The invariant of the data model, for a grid of at least one pixel. *)
Definition wf (im : t) : Prop :=
  0 < width im ∧ 0 < height im ∧
  len (data im) = width im * height im ∧
  Forall (λ p, is_pixel p = true) (data im).

Definition wfb (im : t) : bool :=
  (0 <? width im) && (0 <? height im)
  && (len (data im) =? width im * height im)
  && forallb is_pixel (data im).

End Image.

(** ** The editor monad: the current image as state, exceptions as results *)

Definition M (A : Type) : Type := Image.t → res A * Image.t.

Definition ret {A : Type} (a : A) : M A := λ s, (Ok a, s).

Definition bind {A B : Type} (m : M A) (k : A → M B) : M B :=
  λ s, match m s with
       | (Ok a, s') => k a s'
       | (Raise e, s') => (Raise e, s')
       end.

#[global] Instance M_ret : MRet M := @ret.
#[global] Instance M_mbind : MBind M := λ A B k m, bind m k.

(** A computation that touches no image. *)
Definition lift {A : Type} (r : res A) : M A := λ s, (r, s).

(** [try: m except e: h] *)
Definition try_except {A : Type} (m : M A) (e : exn) (h : M A) : M A :=
  λ s, match m s with
       | (Ok a, s') => (Ok a, s')
       | (Raise e', s') => if exn_eqb e e' then h s' else (Raise e', s')
       end.

(** [for x in xs: body], without and with local variables carried along. *)
Fixpoint for_ {A : Type} (xs : list A) (body : A → M unit) : M unit :=
  match xs with
  | [] => ret tt
  | x :: rest => bind (body x) (λ _, for_ rest body)
  end.

Fixpoint for_fold {A B : Type} (xs : list A) (b : B) (body : B → A → M B) : M B :=
  match xs with
  | [] => ret b
  | x :: rest => bind (body b x) (λ b', for_fold rest b' body)
  end.

(** The methods of the current image, [self.getCurrent().f(...)]. *)
Module Current.

Definition getWidth : M Z := λ s, (Ok (Image.getWidth s), s).
Definition getHeight : M Z := λ s, (Ok (Image.getHeight s), s).
Definition getLength : M Z := λ s, (Ok (Image.getLength s), s).
Definition copy : M Image.t := λ s, (Ok (Image.copy s), s).

Definition getPixel (row col : Z) : M pixel :=
  λ s, (Image.getPixel s row col, s).
Definition getFlatPixel (pos : Z) : M pixel :=
  λ s, (Image.getFlatPixel s pos, s).

Definition update (r : Image.t → res Image.t) : M unit :=
  λ s, match r s with
       | Ok s' => (Ok tt, s')
       | Raise e => (Raise e, s)
       end.

Definition setPixel (row col : Z) (p : pixel) : M unit :=
  update (λ s, Image.setPixel s row col p).
Definition setFlatPixel (pos : Z) (p : pixel) : M unit :=
  update (λ s, Image.setFlatPixel s pos p).
Definition setWidth (value : Z) : M unit :=
  update (λ s, Image.setWidth s value).

End Current.

(** ** The editor (a6editor.Editor) *)

(** *** Geometric transforms *)

(** [transpose]: the copy is the reference that is read, the current image
    is resized and written. *)
Definition transpose : M unit :=
  original ← Current.copy;
  h ← Current.getHeight;
  Current.setWidth h;;
  h' ← Current.getHeight;
  for_ (range h') (λ row,
    w' ← Current.getWidth;
    for_ (range w') (λ col,
      p ← lift (Image.getPixel original col row);
      Current.setPixel row col p)).

Definition rotateRight : M unit :=
  original ← Current.copy;
  h ← Current.getHeight;
  Current.setWidth h;;
  h' ← Current.getHeight;
  for_ (range h') (λ row,
    w' ← Current.getWidth;
    for_ (range w') (λ col,
      p ← lift (Image.getPixel original (Image.getHeight original - col - 1) row);
      Current.setPixel row col p)).

(** *** Bars *)

Definition _drawHBar (row : Z) (pixel : pixel) : M unit :=
  w ← Current.getWidth;
  for_ (range w) (λ col,
    Current.setPixel row col pixel;;
    Current.setPixel (row + 1) col pixel;;
    Current.setPixel (row + 2) col pixel).

Definition _drawVBar (col : Z) (pixel : pixel) : M unit :=
  h ← Current.getHeight;
  for_ (range h) (λ row,
    Current.setPixel row col pixel;;
    Current.setPixel row (col + 1) pixel;;
    Current.setPixel row (col + 2) pixel;;
    Current.setPixel row (col + 3) pixel).

(** [jail]: [dist] is a double, and so is [x*dist] before [int] truncates it. *)
Definition jail : M unit :=
  let pixel := (255, 0, 0) in
  w ← Current.getWidth;
  h ← Current.getHeight;
  _drawHBar 0 pixel;;
  _drawHBar (h - 3) pixel;;
  let n := (w - 8) / 50 in
  dist ← lift (true_div (w - 4) (n + 2));
  for_ (range (n + 3)) (λ x,
    _drawVBar (int_of_float (PrimFloat.mul (float_of_int x) dist)) pixel).

(** *** Pixellation *)

(** [int(total/countk)] for the non-negative sums of [_avgRGB].  Python goes
    through a double: the correctly rounded quotient, truncated.  For channel
    sums ([total <= 255*countk]) over fewer than [2^46] pixels that is the
    integer quotient, which is what is written here. *)
Definition int_div (total countk : Z) : res Z :=
  if countk =? 0 then Raise ZeroDivisionError else Ok (Z.quot total countk).

(** The running sums [red], [green], [blue] and the counter [countk]. *)
Definition sums : Type := (Z * Z * Z * Z)%type.

Definition add_pixel (acc : sums) (p : pixel) : sums :=
  let '(red, green, blue, countk) := acc in
  let '(r, g, b) := p in
  (red + r, green + g, blue + b, countk + 1).

(** [_avgRGB(current, x, y, step)].  The two [print] calls only write to the
    console and are left out.  A pixel outside the image makes [getPixel] or
    [setPixel] raise [AssertionError], which the inner [try] swallows; the
    outer [try] is then never taken. *)
Definition _avgRGB (x y step : Z) : M unit :=
  acc ← for_fold (range2 x (x + step)) ((0, 0, 0, 0) : sums) (λ acc k,
           try_except
             (for_fold (range2 y (y + step)) acc (λ acc j,
                try_except
                  (pixel ← Current.getPixel k j; ret (add_pixel acc pixel))
                  AssertionError (ret acc)))
             AssertionError (ret acc));
  let '(red, green, blue, countk) := acc in
  avgRed ← lift (int_div red countk);
  avgGreen ← lift (int_div green countk);
  avgBlue ← lift (int_div blue countk);
  let pixel := (avgRed, avgGreen, avgBlue) in
  for_ (range2 x (x + step)) (λ k,
    try_except
      (for_ (range2 y (y + step)) (λ j,
         try_except (Current.setPixel k j pixel) AssertionError (ret tt)))
      AssertionError (ret tt)).

Definition pixellate (step : Z) : M unit :=
  lift (assert_ (0 <? step));;
  w ← Current.getWidth;
  h ← Current.getHeight;
  for_ (range3 0 h step) (λ x,
    for_ (range3 0 w step) (λ y,
      _avgRGB x y step)).

(** *** The steganographic channel *)

(** What [_is_ASCII] returns: [True], [False], or [None] when the loop body
    never runs. *)
Definition eq_True (o : option bool) : bool :=
  match o with Some true => true | _ => false end.
Definition eq_False (o : option bool) : bool :=
  match o with Some false => true | _ => false end.

(** [_is_ASCII]: both branches of the second test return, so the loop ends
    at the first element, and falls through to [None] on an empty list. *)
Definition _is_ASCII (thelist : list Z) : option bool :=
  match thelist with
  | [] => None
  | x :: _ => if negb ((0 <=? x) && (x <=? 255)) then Some false else Some true
  end.

Definition _text_to_ASCII (text : pystr) : list Z := ord <$> text.

Fixpoint chr_each (code : list Z) : res pystr :=
  match code with
  | [] => Ok []
  | x :: rest => c ← chr x; s ← chr_each rest; Ok (c :: s)
  end.

Definition _translate_ASCII (code : list Z) : res pystr :=
  assert_ (eq_True (_is_ASCII code));;
  chr_each code.

(** [_Code_to_Int] returns an integer, or [False] where [int] raises
    [ValueError].  In Python [False] is the integer 0: [0 == False] holds,
    [str(False)] is the five characters of [False]. *)
Inductive int_or_False : Type :=
  | PyInt (n : Z)
  | PyFalse.

Definition as_int (v : int_or_False) : Z :=
  match v with PyInt n => n | PyFalse => 0 end.

Definition py_str (v : int_or_False) : pystr :=
  match v with
  | PyInt n => str_int n
  | PyFalse => [70; 97; 108; 115; 101]
  end.

Definition _Code_to_Int (string : pystr) : res int_or_False :=
  match py_int string with
  | Ok n => Ok (PyInt n)
  | Raise ValueError => Ok PyFalse
  | Raise e => Raise e
  end.

Definition _isMarker (thelist : list Z) : res bool :=
  if eq_False (_is_ASCII thelist) then Ok false else
  let marker1 := take 2 thelist in
  if negb (bool_decide (marker1 = [125; 126])) then Ok false else
  let rest := drop 2 thelist in
  i ← list_index rest 126;
  let pos := i + 2 in
  c ← py_getitem thelist (pos + 1);
  if negb (c =? 123) then Ok false else
  let between := py_slice thelist 2 pos in
  if 6 <? len between then Ok false else
  number ← _translate_ASCII between;
  v ← _Code_to_Int number;
  if as_int v =? 0 then Ok false else Ok true.

Definition _getLengthCode (thelist : list Z) : res int_or_False :=
  assert_ (eq_True (_is_ASCII thelist));;
  let rest := drop 2 thelist in
  pos ← list_index rest 126;
  let thelist := py_slice rest 0 pos in
  string ← _translate_ASCII thelist;
  _Code_to_Int string.

Definition _decode_pixel (pos : Z) : M Z :=
  rgb ← Current.getFlatPixel pos;
  let '(red, green, blue) := rgb in
  ret ((red mod 10) * 100 + (green mod 10) * 10 + blue mod 10).

Definition _pixels_to_ASCII : M (list Z) :=
  length ← Current.getLength;
  for_fold (range length) [] (λ list x,
    v ← _decode_pixel x; ret (list ++ [v])).

(** One channel of [_encode_pixel]; the source writes it out three times. *)
Definition encode_channel (channel digit : Z) : Z :=
  let v := channel / 10 * 10 + digit in
  if 255 <? v then v - 10 else v.

Definition _encode_pixel (pos ASCII : Z) : M unit :=
  lift (assert_ (0 <=? ASCII));;
  lift (assert_ (ASCII <=? 255));;
  let a := ASCII / 100 in
  let b := (ASCII / 10) mod 10 in
  let c := ASCII mod 10 in
  rgb ← Current.getFlatPixel pos;
  let '(red, green, blue) := rgb in
  let red := encode_channel red a in
  let green := encode_channel green b in
  let blue := encode_channel blue c in
  Current.setFlatPixel pos (red, green, blue).

Definition _ASCII_encode (thelist : list Z) : M unit :=
  lift (assert_ (eq_True (_is_ASCII thelist)));;
  for_ (range (len thelist)) (λ x,
    value ← lift (py_getitem thelist x);
    _encode_pixel x value).

Definition marker_start : pystr := [125; 126].
Definition marker_end : pystr := [126; 123].

Definition encode (text : pystr) : M bool :=
  if 999999 <? len text then ret false else
  let string := str_int (len text) in
  let character_length := len string in
  let characters_total := character_length + 4 + len text in
  maximum ← Current.getLength;
  if maximum <? characters_total then ret false else
  let marker := marker_start ++ string ++ marker_end in
  let ASCII_code := _text_to_ASCII marker ++ _text_to_ASCII text in
  _ASCII_encode ASCII_code;;
  ret true.

Definition decode : M (option pystr) :=
  message_code ← _pixels_to_ASCII;
  is_marker ← lift (_isMarker message_code);
  if negb is_marker then ret None else
  length_text ← lift (_getLengthCode message_code);
  let charac_length := len (py_str length_text) in
  let start := 4 + charac_length in
  let stop := start + as_int length_text in
  let text_code := py_slice message_code start stop in
  text ← lift (_translate_ASCII text_code);
  ret (Some text).

(** ** Running the model on small inputs *)

Definition grey (n : Z) : pixel := (n, n, n).

Definition strip (ps : list pixel) : Image.t :=
  Image.mk (len ps) 1 ps.

Definition run {A : Type} (m : M A) (s : Image.t) : res A := fst (m s).
Definition exec {A : Type} (m : M A) (s : Image.t) : Image.t := snd (m s).

(** ** What the properties are stated with *)

(** A computation is read-only when it hands back the image it was given,
    whatever it returns or raises. *)
Definition readonly {A : Type} (m : M A) : Prop := ∀ s, snd (m s) = s.

(** The number of characters of the decimal representation. *)
Definition digitCount (n : Z) : Z := len (str_int n).

(** The pixel at (row, col) of a grid, for stating what a transform wrote. *)
Definition pix (im : Image.t) (row col : Z) : pixel :=
  default (0, 0, 0) (Image.data im !! Z.to_nat (row * Image.width im + col)).

Definition is_red (im : Image.t) (row col : Z) : bool :=
  match Image.getPixel im row col with
  | Ok (255, 0, 0) => true
  | _ => false
  end.

(** The columns of a row that are red, and those where a run of red starts. *)
Definition red_columns (im : Image.t) (row : Z) : list Z :=
  filter (λ col, is_red im row col = true) (range (Image.width im)).

Definition bar_starts (im : Image.t) (row : Z) : list Z :=
  filter (λ col, is_red im row col = true ∧ is_red im row (col - 1) = false)
         (range (Image.width im)).

(** Concrete images. *)
Definition black (w h : Z) : Image.t :=
  Image.mk w h (replicate (Z.to_nat (w * h)) (0, 0, 0)).

(** Three pixels whose channel-digit numbers are 125, 126, 57: the codes of
    [}], [~] and [9]. *)
Definition no_closing_marker : Image.t :=
  strip [(1, 2, 5); (1, 2, 6); (0, 5, 7)].

Definition ten_pixels : Image.t :=
  strip (grey <$> [199; 254; 247; 0; 9; 10; 255; 100; 37; 42]).

(** A grid of [W] columns and [H] rows that satisfies the invariant. *)
Definition grid (W H : Z) (s : Image.t) : Prop :=
  Image.width s = W ∧ Image.height s = H ∧
  len (Image.data s) = W * H ∧
  Forall (λ p, Image.is_pixel p = true) (Image.data s).

(** What [_encode_pixel] makes of a pixel, and what [_decode_pixel] reads
    from one. *)
Definition hide (p : pixel) (c : Z) : pixel :=
  let '(r, g, b) := p in
  (encode_channel r (c / 100), encode_channel g ((c / 10) mod 10),
   encode_channel b (c mod 10)).

Definition hidden (p : pixel) : Z :=
  let '(r, g, b) := p in (r mod 10) * 100 + (g mod 10) * 10 + b mod 10.

(** The number that a list of decimal digits stands for. *)
Definition digits_value (a : Z) (ds : pystr) : Z :=
  foldl (λ a d, 10 * a + (d - 48)) a ds.

(** The block of [pixellate] with corner (x, y): rows
    [x, min(x+step, height)) and columns [y, min(y+step, width)). *)
Definition block_rows (im : Image.t) (x step : Z) : list Z :=
  seqZ x (Z.min (x + step) (Image.height im) - x).

Definition block_cols (im : Image.t) (y step : Z) : list Z :=
  seqZ y (Z.min (y + step) (Image.width im) - y).

Definition block_pixels (im : Image.t) (x y step : Z) : list pixel :=
  r ← block_rows im x step; pix im r <$> block_cols im y step.

Definition chan_r (p : pixel) : Z := p.1.1.
Definition chan_g (p : pixel) : Z := p.1.2.
Definition chan_b (p : pixel) : Z := p.2.

Definition channel_sum (f : pixel → Z) (ps : list pixel) : Z :=
  foldr (λ p a, f p + a) 0 ps.

(** The per-channel mean of a list of pixels, truncated to an integer. *)
Definition mean_rgb (ps : list pixel) : pixel :=
  (Z.quot (channel_sum chan_r ps) (len ps),
   Z.quot (channel_sum chan_g ps) (len ps),
   Z.quot (channel_sum chan_b ps) (len ps)).

(** The corner of the block that a row or column index falls in. *)
Definition corner (i step : Z) : Z := i / step * step.

(** A grid of three rows and three columns, for a step of 2: the last row and
    the last column are clipped blocks. *)
Definition nine_pixels : Image.t :=
  Image.mk 3 3 (grey <$> [1; 2; 3; 4; 5; 6; 7; 8; 10]).

(** A grid of two rows and three columns. *)
Definition six_pixels : Image.t :=
  Image.mk 3 2 (grey <$> [1; 2; 3; 4; 5; 6]).

(** ** The other operations of the editor *)

(** Modelled from the spec: [swapPixels] belongs to [a6image.py], which is
    not among the sources.  The spec describes the reflections as an in-place
    pairwise swap of a pixel with its mirror; the two positions are checked
    like those of [getPixel] and [setPixel]. *)
Definition swapPixels_image (im : Image.t) (row1 col1 row2 col2 : Z) : res Image.t :=
  if Image.in_grid im row1 col1 && Image.in_grid im row2 col2 then
    p1 ← Image.read im (row1 * Image.width im + col1);
    p2 ← Image.read im (row2 * Image.width im + col2);
    Ok (Image.write (Image.write im (row1 * Image.width im + col1) p2)
                    (row2 * Image.width im + col2) p1)
  else Raise AssertionError.

Definition swapPixels (row1 col1 row2 col2 : Z) : M unit :=
  Current.update (λ s, swapPixels_image s row1 col1 row2 col2).

Definition invert : M unit :=
  n ← Current.getLength;
  for_ (range n) (λ pos,
    rgb ← Current.getFlatPixel pos;
    let '(r, g, b) := rgb in
    let red := 255 - r in
    let green := 255 - g in
    let blue := 255 - b in
    Current.setFlatPixel pos (red, green, blue)).

Definition reflectHori : M unit :=
  w ← Current.getWidth;
  for_ (range (w / 2)) (λ h,
    height ← Current.getHeight;
    for_ (range height) (λ row,
      w' ← Current.getWidth;
      let k := w' - 1 - h in
      swapPixels row h row k)).

Definition reflectVert : M unit :=
  height ← Current.getHeight;
  for_ (range (height / 2)) (λ h,
    w ← Current.getWidth;
    for_ (range w) (λ col,
      height' ← Current.getHeight;
      let k := height' - 1 - h in
      swapPixels h col k col)).

Definition rotateLeft : M unit :=
  original ← Current.copy;
  h ← Current.getHeight;
  Current.setWidth h;;
  h' ← Current.getHeight;
  for_ (range h') (λ row,
    w' ← Current.getWidth;
    for_ (range w') (λ col,
      p ← lift (Image.getPixel original col (Image.getWidth original - row - 1));
      Current.setPixel row col p)).

(** The complement of a pixel, as [invert] computes it. *)
Definition complement (p : pixel) : pixel :=
  let '(r, g, b) := p in (255 - r, 255 - g, 255 - b).

(** Two pixels whose channels differ by at most 9. *)
Definition close (p p' : pixel) : Prop :=
  let '(r, g, b) := p in
  let '(r', g', b') := p' in
  -9 ≤ r' - r ≤ 9 ∧ -9 ≤ g' - g ≤ 9 ∧ -9 ≤ b' - b ≤ 9.

(** *** Vignette *)

(** [a / b] on doubles, which raises [ZeroDivisionError] for a zero divisor. *)
Definition float_div (a b : float) : res float :=
  if PrimFloat.eqb b 0%float then Raise ZeroDivisionError
  else Ok (PrimFloat.div a b).

(** [x ** 0.5] and [x ** 2] on doubles.  Python hands both to the [pow] of
    the C library; they are written here as the correctly rounded square
    root and square, which is what [pow] returns wherever the exact result
    is a double. *)
Definition float_pow_half (x : float) : float := PrimFloat.sqrt x.
Definition float_pow_two (x : float) : float := PrimFloat.mul x x.

(** [vignette]: [midx], [midy], [hfd], [hfd2], [dist2] and [formula] are
    doubles; [int] truncates each product, and nothing clamps it. *)
Definition vignette : M unit :=
  w ← Current.getWidth;
  h ← Current.getHeight;
  midx ← lift (true_div w 2);
  midy ← lift (true_div h 2);
  let hfd := PrimFloat.mul 0.5%float
               (float_pow_half (float_of_int (w ^ 2 + h ^ 2))) in
  let hfd2 := float_pow_two hfd in
  for_ (range h) (λ x,
    for_ (range w) (λ k,
      let dist2 := PrimFloat.add
                     (float_pow_two (PrimFloat.sub (float_of_int k) midx))
                     (float_pow_two (PrimFloat.sub (float_of_int x) midy)) in
      q ← lift (float_div dist2 hfd2);
      let formula := PrimFloat.sub (float_of_int 1) q in
      rgb ← Current.getPixel x k;
      let '(r, g, b) := rgb in
      let red := int_of_float (PrimFloat.mul (float_of_int r) formula) in
      let green := int_of_float (PrimFloat.mul (float_of_int g) formula) in
      let blue := int_of_float (PrimFloat.mul (float_of_int b) formula) in
      Current.setPixel x k (red, green, blue))).

(** A grid of one colour. *)
Definition plain (w h : Z) (p : pixel) : Image.t :=
  Image.mk w h (replicate (Z.to_nat (w * h)) p).

(** The darkening factor of [vignette] at (row, col) of a grid [w] wide and
    [h] high, computed as [vignette] computes [formula]. *)
Definition darkening_factor (w h row col : Z) : float :=
  let midx := PrimFloat.div (float_of_int w) (float_of_int 2) in
  let midy := PrimFloat.div (float_of_int h) (float_of_int 2) in
  let hfd := PrimFloat.mul 0.5%float
               (float_pow_half (float_of_int (w ^ 2 + h ^ 2))) in
  let hfd2 := float_pow_two hfd in
  let dist2 := PrimFloat.add
                 (float_pow_two (PrimFloat.sub (float_of_int col) midx))
                 (float_pow_two (PrimFloat.sub (float_of_int row) midy)) in
  PrimFloat.sub (float_of_int 1) (PrimFloat.div dist2 hfd2).

(** What the digit encoding promises of a channel: [v] carries [digit] as
    its ones digit, lies in [0,255], and has the tens-and-higher part of
    [channel], lowered by exactly 10 where the sum would pass 255. *)
Definition digit_encoded (channel digit v : Z) : Prop :=
  v mod 10 = digit ∧ 0 ≤ v ≤ 255 ∧
  (channel / 10 * 10 + digit ≤ 255 → v / 10 * 10 = channel / 10 * 10) ∧
  (255 < channel / 10 * 10 + digit → v / 10 * 10 = channel / 10 * 10 - 10).

(** * Properties *)

(** ** Reasoning about the monad *)

Lemma bind_ok {A B : Type} (m : M A) (k : A → M B) s a s' :
  m s = (Ok a, s') → (m ≫= k) s = k a s'.
Proof. intros H. unfold mbind, M_mbind, bind. by rewrite H. Qed.

Lemma bind_raise {A B : Type} (m : M A) (k : A → M B) s e s' :
  m s = (Raise e, s') → (m ≫= k) s = (Raise e, s').
Proof. intros H. unfold mbind, M_mbind, bind. by rewrite H. Qed.

Lemma bind_lift_ok {A B : Type} (r : res A) (k : A → M B) s a :
  r = Ok a → (lift r ≫= k) s = k a s.
Proof. intros ->. done. Qed.

Lemma readonly_ret {A : Type} (a : A) : readonly (ret a).
Proof. done. Qed.

Lemma readonly_lift {A : Type} (r : res A) : readonly (lift r).
Proof. done. Qed.

Lemma readonly_bind {A B : Type} (m : M A) (k : A → M B) :
  readonly m → (∀ a, readonly (k a)) → readonly (m ≫= k).
Proof.
  intros Hm Hk s. unfold mbind, M_mbind, bind.
  specialize (Hm s). destruct (m s) as [[a|e] s']; simpl in *; subst.
  - apply Hk.
  - done.
Qed.

Lemma readonly_for_fold {A B : Type} (xs : list A) (body : B → A → M B) :
  (∀ b x, readonly (body b x)) → ∀ b, readonly (for_fold xs b body).
Proof.
  intros Hbody. induction xs as [|x xs IH]; intros b; simpl.
  - apply readonly_ret.
  - apply (readonly_bind (body b x)); auto.
Qed.

Lemma readonly_getLength : readonly Current.getLength.
Proof. done. Qed.

Lemma readonly_getFlatPixel pos : readonly (Current.getFlatPixel pos).
Proof. done. Qed.

Lemma readonly_decode_pixel pos : readonly (_decode_pixel pos).
Proof.
  apply readonly_bind; [apply readonly_getFlatPixel|].
  intros [[r g] b]. apply readonly_ret.
Qed.

Lemma readonly_pixels_to_ASCII : readonly _pixels_to_ASCII.
Proof.
  apply readonly_bind; [apply readonly_getLength|]. intros n.
  apply readonly_for_fold. intros acc x.
  apply readonly_bind; [apply readonly_decode_pixel|].
  intros v. apply readonly_ret.
Qed.

(** ** The model on the examples of the docstrings *)

(** The example of [_encode_pixel]: (199,254,247) hiding 165 becomes
    (191,246,245). *)
Example encode_pixel_docstring :
  _encode_pixel 0 165 (strip [(199, 254, 247)]) = (Ok tt, strip [(191, 246, 245)]).
Proof. reflexivity. Qed.

Example decode_pixel_docstring :
  run (_decode_pixel 0) (strip [(191, 246, 245)]) = Ok 165.
Proof. reflexivity. Qed.

(** [_is_ASCII] looks at the first element only. *)
Example is_ASCII_first_only :
  _is_ASCII [65; 999] = Some true ∧ _is_ASCII [999; 65] = Some false
  ∧ _is_ASCII [] = None.
Proof. done. Qed.

(** The marker of the docstring, [}~876557~{]. *)
Example marker_docstring :
  marker_start ++ str_int 876557 ++ marker_end
  = [125; 126; 56; 55; 54; 53; 53; 55; 126; 123].
Proof. reflexivity. Qed.

Example str_int_examples :
  str_int 0 = [48] ∧ str_int 999999 = [57; 57; 57; 57; 57; 57]
  ∧ str_int (-45) = [45; 52; 53].
Proof. done. Qed.

(** A space, a minus sign, [1_2] and a no-break space parse to -12; leading
    zeros are accepted; a sign alone, a doubled underscore, the separator
    U+001C and the empty string are rejected. *)
Example py_int_examples :
  py_int [32; 45; 49; 95; 50; 160] = Ok (-12)
  ∧ py_int [48; 48; 55] = Ok 7
  ∧ py_int [43] = Raise ValueError
  ∧ py_int [49; 95; 95; 50] = Raise ValueError
  ∧ py_int [28; 53] = Raise ValueError
  ∧ py_int [] = Raise ValueError.
Proof. done. Qed.

Example slice_examples :
  py_slice [1; 2; 3; 4; 5; 6; 7; 8] 6 (-3) = []
  ∧ py_slice [1; 2; 3; 4; 5; 6; 7; 8] 2 (-3) = [3; 4; 5]
  ∧ py_slice [1; 2; 3] 5 1 = [].
Proof. done. Qed.

Example range_examples :
  range 3 = [0; 1; 2] ∧ range2 2 5 = [2; 3; 4] ∧ range3 0 5 2 = [0; 2; 4]
  ∧ range3 0 4 2 = [0; 2].
Proof. done. Qed.

Example transpose_six_pixels :
  transpose six_pixels = (Ok tt, Image.mk 2 3 (grey <$> [1; 4; 2; 5; 3; 6])).
Proof. reflexivity. Qed.

Example rotateRight_six_pixels :
  rotateRight six_pixels = (Ok tt, Image.mk 2 3 (grey <$> [4; 1; 5; 2; 6; 3])).
Proof. reflexivity. Qed.

(** Step 2 on three rows and three columns: four blocks, of 4, 2, 2 and 1
    pixels. *)
Example pixellate_nine_pixels :
  pixellate 2 nine_pixels
  = (Ok tt, Image.mk 3 3 (grey <$> [3; 3; 4; 3; 3; 4; 7; 7; 10])).
Proof. reflexivity. Qed.

(** ** The channel digit *)

(** One channel.  For every channel value in [0,255] and every digit in [0,9], the
    encoded channel has the digit as its ones digit and stays in [0,255]; its
    tens-and-higher part is that of the channel, except when the sum would
    pass 255, where it is lower by exactly 10. *)
Theorem encode_channel_digit (channel digit : Z) :
  0 ≤ channel ≤ 255 → 0 ≤ digit ≤ 9 →
  let v := encode_channel channel digit in
  v mod 10 = digit ∧ 0 ≤ v ≤ 255 ∧
  (channel / 10 * 10 + digit ≤ 255 → v / 10 * 10 = channel / 10 * 10) ∧
  (255 < channel / 10 * 10 + digit → v / 10 * 10 = channel / 10 * 10 - 10).
Proof.
  intros Hc Hd. unfold encode_channel. cbv zeta.
  destruct (Z.ltb_spec 255 (channel / 10 * 10 + digit)) as [Hov|Hov].
  - repeat split; try lia.
    all: try (intros; lia).
    all: revert Hov; Z.div_mod_to_equations; lia.
  - repeat split; try lia.
    all: try (intros; lia).
    all: revert Hov; Z.div_mod_to_equations; lia.
Qed.

Lemma encode_channel_digit_witness :
  let v := encode_channel 254 6 in
  v mod 10 = 6 ∧ 0 ≤ v ≤ 255 ∧
  (254 / 10 * 10 + 6 ≤ 255 → v / 10 * 10 = 254 / 10 * 10) ∧
  (255 < 254 / 10 * 10 + 6 → v / 10 * 10 = 254 / 10 * 10 - 10).
Proof. apply (encode_channel_digit 254 6); lia. Defined.

(** ** Capacity *)

(** C2.  A text of more than 999999 characters, or one whose frame of
    [4 + digitCount(len(text)) + len(text)] characters exceeds the number of
    pixels, makes [encode] return [False] and leaves the image as it was. *)
Theorem encode_capacity_failure (g : Image.t) (text : pystr) :
  999999 < len text ∨ Image.getLength g < 4 + digitCount (len text) + len text →
  encode text g = (Ok false, g).
Proof.
  intros H. unfold encode.
  destruct (Z.ltb_spec 999999 (len text)) as [Hlong|Hshort]; [done|].
  destruct H as [H|H]; [lia|].
  unfold mbind, M_mbind, bind, Current.getLength. simpl.
  unfold digitCount in H.
  destruct (Z.ltb_spec (Image.getLength g) (len (str_int (len text)) + 4 + len text)); [done|lia].
Qed.

Lemma encode_capacity_failure_witness :
  encode [72; 105] no_closing_marker = (Ok false, no_closing_marker).
Proof. apply encode_capacity_failure. right. vm_compute. reflexivity. Defined.

(** ** Decoding reads only *)

(** C10.  [decode] hands back the image it was given, width, height and
    every pixel, whether it returns a message, returns [None] or raises. *)
Theorem decode_readonly (g : Image.t) : snd (decode g) = g.
Proof.
  revert g. change (readonly decode). unfold decode.
  apply readonly_bind; [apply readonly_pixels_to_ASCII|]. intros code.
  apply readonly_bind; [apply readonly_lift|]. intros m.
  destruct (negb m); [apply readonly_ret|].
  apply readonly_bind; [apply readonly_lift|]. intros n.
  apply readonly_bind; [apply readonly_lift|]. intros text.
  apply readonly_ret.
Qed.

(** ** A marker without its closing pair *)

(** C3.  On an image whose channel-digit numbers are the codes of [}], [~]
    and [9], with no further [~], [decode] does not return [None]: the search
    [rest.index(126)] of [_isMarker] raises [ValueError]. *)
Theorem decode_no_closing_marker_raises :
  decode no_closing_marker = (Raise ValueError, no_closing_marker).
Proof. vm_compute. reflexivity. Qed.

(** The example of the spec, channel-digit numbers 125, 57, 88 for [}], [9]
    and [X], is rejected at the second character and gives [None]. *)
Lemma decode_wrong_second_character :
  decode (strip [(1, 2, 5); (0, 5, 7); (0, 8, 8)])
  = (Ok None, strip [(1, 2, 5); (0, 5, 7); (0, 8, 8)]).
Proof. vm_compute. reflexivity. Qed.

(** ** The bars of the jail *)

(** C8.  On an image 120 pixels wide and 7 high, [jail] draws five vertical
    bars, at columns 0, 29, 58, 87 and 116: three between the two at the
    edges, where [n = (120-8)//50 = 2].  Row 3 lies between the two
    horizontal bars. *)
Theorem jail_width_120 :
  (120 - 8) / 50 = 2 ∧
  true_div (120 - 4) (2 + 2) = Ok (float_of_int 29) ∧
  run jail (black 120 7) = Ok tt ∧
  bar_starts (exec jail (black 120 7)) 3 = [0; 29; 58; 87; 116] ∧
  len (red_columns (exec jail (black 120 7)) 3) = 20 ∧
  red_columns (exec jail (black 120 7)) 0 = range 120 ∧
  red_columns (exec jail (black 120 7)) 4 = range 120.
Proof. vm_compute. repeat split; reflexivity. Qed.

(** ** Loops over a range *)

Lemma for_range_inv (I : Z → Image.t → Prop) (body : Z → M unit) (n : nat) :
  ∀ a s,
  (∀ k s, a ≤ k < a + Z.of_nat n → I k s →
          ∃ s', body k s = (Ok tt, s') ∧ I (k + 1) s') →
  I a s →
  ∃ s', for_ (seqZ a (Z.of_nat n)) body s = (Ok tt, s') ∧ I (a + Z.of_nat n) s'.
Proof.
  induction n as [|n IH]; intros a s Hstep Ha.
  - exists s. rewrite seqZ_nil by lia. rewrite Z.add_0_r. done.
  - rewrite seqZ_cons by lia. simpl.
    destruct (Hstep a s) as (s1 & Hb & H1); [lia|done|].
    unfold bind. rewrite Hb.
    destruct (IH (a + 1) s1) as (s' & Hfor & Hs').
    + intros k s2 Hk. apply Hstep. lia.
    + done.
    + exists s'. replace (Z.succ a) with (a + 1) by lia.
      replace (Z.pred (Z.of_nat (S n))) with (Z.of_nat n) by lia.
      split; [done|]. by replace (a + Z.of_nat (S n)) with (a + 1 + Z.of_nat n) by lia.
Qed.

Lemma for_range (I : Z → Image.t → Prop) (body : Z → M unit) (a n : Z) (s : Image.t) :
  0 ≤ n →
  (∀ k s, a ≤ k < a + n → I k s → ∃ s', body k s = (Ok tt, s') ∧ I (k + 1) s') →
  I a s →
  ∃ s', for_ (seqZ a n) body s = (Ok tt, s') ∧ I (a + n) s'.
Proof.
  intros Hn Hstep Ha.
  destruct (for_range_inv I body (Z.to_nat n) a s) as (s' & Hfor & Hs').
  - intros k s1 Hk. apply Hstep. lia.
  - done.
  - rewrite Z2Nat.id in * by done. eauto.
Qed.

Lemma for_fold_range_inv {B : Type} (I : Z → B → Image.t → Prop)
    (body : B → Z → M B) (n : nat) :
  ∀ a b s,
  (∀ k b s, a ≤ k < a + Z.of_nat n → I k b s →
            ∃ b' s', body b k s = (Ok b', s') ∧ I (k + 1) b' s') →
  I a b s →
  ∃ b' s', for_fold (seqZ a (Z.of_nat n)) b body s = (Ok b', s')
           ∧ I (a + Z.of_nat n) b' s'.
Proof.
  induction n as [|n IH]; intros a b s Hstep Ha.
  - exists b, s. rewrite seqZ_nil by lia. rewrite Z.add_0_r. done.
  - rewrite seqZ_cons by lia. simpl.
    destruct (Hstep a b s) as (b1 & s1 & Hb & H1); [lia|done|].
    unfold bind. rewrite Hb.
    destruct (IH (a + 1) b1 s1) as (b' & s' & Hfor & Hs').
    + intros k b2 s2 Hk. apply Hstep. lia.
    + done.
    + exists b', s'. replace (Z.succ a) with (a + 1) by lia.
      replace (Z.pred (Z.of_nat (S n))) with (Z.of_nat n) by lia.
      split; [done|]. by replace (a + Z.of_nat (S n)) with (a + 1 + Z.of_nat n) by lia.
Qed.

Lemma for_fold_range {B : Type} (I : Z → B → Image.t → Prop)
    (body : B → Z → M B) (a n : Z) (b : B) (s : Image.t) :
  0 ≤ n →
  (∀ k b s, a ≤ k < a + n → I k b s →
            ∃ b' s', body b k s = (Ok b', s') ∧ I (k + 1) b' s') →
  I a b s →
  ∃ b' s', for_fold (seqZ a n) b body s = (Ok b', s') ∧ I (a + n) b' s'.
Proof.
  intros Hn Hstep Ha.
  destruct (for_fold_range_inv I body (Z.to_nat n) a b s) as (b' & s' & Hfor & Hs').
  - intros k b1 s1 Hk. apply Hstep. lia.
  - done.
  - rewrite Z2Nat.id in * by done. eauto.
Qed.

Lemma for_fmap {A B : Type} (f : A → B) (xs : list A) (body : B → M unit) :
  for_ (f <$> xs) body = for_ xs (λ x, body (f x)).
Proof. induction xs as [|x xs IH]; [done|]. rewrite fmap_cons. simpl. by rewrite IH. Qed.

(** ** Pixels of a grid *)

Lemma flat_inj (W r c r' c' : Z) :
  0 ≤ c < W → 0 ≤ c' < W → r * W + c = r' * W + c' → r = r' ∧ c = c'.
Proof. intros Hc Hc' Heq. assert (r = r') by nia. subst. lia. Qed.

Lemma flat_lt (W H r c : Z) :
  0 ≤ r < H → 0 ≤ c < W → 0 ≤ r * W + c < W * H.
Proof. nia. Qed.

Lemma in_grid_true (s : Image.t) (r c : Z) :
  0 ≤ r < Image.height s → 0 ≤ c < Image.width s → Image.in_grid s r c = true.
Proof.
  intros Hr Hc. unfold Image.in_grid.
  repeat (apply andb_true_intro; split); lia.
Qed.

Lemma in_grid_false (s : Image.t) (r c : Z) :
  ¬ (0 ≤ r < Image.height s ∧ 0 ≤ c < Image.width s) → Image.in_grid s r c = false.
Proof.
  intros Hn. unfold Image.in_grid.
  destruct (Z.leb_spec 0 r), (Z.ltb_spec r (Image.height s)),
    (Z.leb_spec 0 c), (Z.ltb_spec c (Image.width s)); simpl; try done; lia.
Qed.

Lemma grid_lookup (W H : Z) (s : Image.t) (r c : Z) :
  grid W H s → 0 ≤ r < H → 0 ≤ c < W →
  Image.data s !! Z.to_nat (r * W + c) = Some (pix s r c)
  ∧ Image.is_pixel (pix s r c) = true.
Proof.
  intros (Hw & Hh & Hlen & Hpx) Hr Hc. unfold pix. rewrite Hw.
  pose proof (flat_lt W H r c Hr Hc) as Hlt.
  destruct (lookup_lt_is_Some_2 (Image.data s) (Z.to_nat (r * W + c))) as [p Hp].
  { unfold len in Hlen. lia. }
  rewrite Hp. unfold default. split; [done|].
  by apply (Forall_lookup_1 _ _ _ _ Hpx Hp).
Qed.

Lemma getPixel_pix (W H : Z) (s : Image.t) (r c : Z) :
  grid W H s → 0 ≤ r < H → 0 ≤ c < W → Image.getPixel s r c = Ok (pix s r c).
Proof.
  intros Hg Hr Hc. pose proof Hg as (Hw & Hh & _).
  unfold Image.getPixel. rewrite in_grid_true by lia.
  unfold Image.read. rewrite Hw.
  by destruct (grid_lookup W H s r c Hg Hr Hc) as [-> _].
Qed.

Lemma setPixel_spec (W H : Z) (s : Image.t) (r c : Z) (p : pixel) :
  grid W H s → 0 ≤ r < H → 0 ≤ c < W → Image.is_pixel p = true →
  ∃ s', Image.setPixel s r c p = Ok s' ∧ grid W H s'
        ∧ pix s' r c = p
        ∧ ∀ r' c', 0 ≤ r' < H → 0 ≤ c' < W → ¬ (r' = r ∧ c' = c) →
                   pix s' r' c' = pix s r' c'.
Proof.
  intros Hg Hr Hc Hp. pose proof Hg as (Hw & Hh & Hlen & Hpx).
  pose proof (flat_lt W H r c Hr Hc) as Hlt.
  unfold Image.setPixel. rewrite in_grid_true, Hp by lia. simpl.
  eexists. split; [done|]. unfold Image.write, pix, grid, len in *. simpl.
  rewrite length_insert, Hw. repeat split; try done.
  - by apply Forall_insert.
  - rewrite list_lookup_insert_eq by lia. done.
  - intros r' c' Hr' Hc' Hne. rewrite list_lookup_insert_ne; [done|].
    intros Heq. apply Hne.
    pose proof (flat_lt W H r' c' Hr' Hc').
    destruct (flat_inj W r c r' c'); [lia|lia|lia|done].
Qed.

Lemma image_ext (W H : Z) (s1 s2 : Image.t) :
  0 < W → grid W H s1 → grid W H s2 →
  (∀ r c, 0 ≤ r < H → 0 ≤ c < W → pix s1 r c = pix s2 r c) →
  s1 = s2.
Proof.
  intros HW Hg1 Hg2 Hpix.
  pose proof Hg1 as (Hw1 & Hh1 & Hlen1 & _). pose proof Hg2 as (Hw2 & Hh2 & Hlen2 & _).
  destruct s1 as [w1 h1 d1], s2 as [w2 h2 d2]. simpl in *. subst.
  f_equal. apply list_eq. intros i.
  destruct (decide (Z.of_nat i < W * H)) as [Hi|Hi].
  - set (r := Z.of_nat i / W). set (c := Z.of_nat i mod W).
    assert (Z.of_nat i = r * W + c) as Hrc.
    { unfold r, c. rewrite Z.mul_comm. apply Z.div_mod. lia. }
    assert (0 ≤ c < W) as Hc by (apply Z.mod_pos_bound; lia).
    assert (0 ≤ r < H) as Hr.
    { split; [apply Z.div_pos; lia|]. apply Z.div_lt_upper_bound; lia. }
    destruct (grid_lookup W H _ r c Hg1 Hr Hc) as [E1 _].
    destruct (grid_lookup W H _ r c Hg2 Hr Hc) as [E2 _].
    simpl in E1, E2. rewrite <- Hrc, Nat2Z.id in E1, E2.
    rewrite E1, E2. f_equal. by apply Hpix.
  - unfold len in *. rewrite !lookup_ge_None_2 by lia. done.
Qed.

Lemma current_setPixel (W H : Z) (s : Image.t) (r c : Z) (p : pixel) :
  grid W H s → 0 ≤ r < H → 0 ≤ c < W → Image.is_pixel p = true →
  ∃ s', Current.setPixel r c p s = (Ok tt, s') ∧ grid W H s'
        ∧ pix s' r c = p
        ∧ ∀ r' c', 0 ≤ r' < H → 0 ≤ c' < W → ¬ (r' = r ∧ c' = c) →
                   pix s' r' c' = pix s r' c'.
Proof.
  intros Hg Hr Hc Hp.
  destruct (setPixel_spec W H s r c p Hg Hr Hc Hp) as (s' & Hset & Hs').
  exists s'. split; [|done].
  unfold Current.setPixel, Current.update. by rewrite Hset.
Qed.

(** ** Transforms that fill a resized grid from a copy *)

(** The double loop shared by [transpose] and the rotations: every cell of
    the grid is written once, with a pixel read from the copy. *)
Lemma fill_loop (src : Z → Z → res pixel) (f : Z → Z → pixel) (W H : Z) (s : Image.t) :
  0 < W → 0 < H → grid W H s →
  (∀ r c, 0 ≤ r < H → 0 ≤ c < W →
          src r c = Ok (f r c) ∧ Image.is_pixel (f r c) = true) →
  ∃ s', for_ (range H) (λ row,
          w' ← Current.getWidth;
          for_ (range w') (λ col,
            p ← lift (src row col);
            Current.setPixel row col p)) s = (Ok tt, s')
        ∧ grid W H s'
        ∧ ∀ r c, 0 ≤ r < H → 0 ≤ c < W → pix s' r c = f r c.
Proof.
  intros HW HH Hg Hsrc. unfold range.
  destruct (for_range
    (λ k s', grid W H s' ∧ ∀ r c, 0 ≤ r < k → 0 ≤ c < W → pix s' r c = f r c)
    (λ row, w' ← Current.getWidth;
            for_ (seqZ 0 w') (λ col,
              p ← lift (src row col); Current.setPixel row col p))
    0 H s) as (s' & Hfor & Hg' & Hpix); [lia| |split; [done|intros; lia]|].
  - intros k s1 Hk [Hg1 Hdone].
    pose proof Hg1 as (Hw1 & _).
    rewrite (bind_ok Current.getWidth _ s1 W s1) by (unfold Current.getWidth, Image.getWidth; by rewrite Hw1).
    destruct (for_range
      (λ j s2, grid W H s2
               ∧ (∀ r c, 0 ≤ r < k → 0 ≤ c < W → pix s2 r c = f r c)
               ∧ (∀ c, 0 ≤ c < j → pix s2 k c = f k c))
      (λ col, p ← lift (src k col); Current.setPixel k col p)
      0 W s1) as (s2 & Hfor2 & Hg2 & Hold & Hrow);
      [lia| |split; [done|split; [done|intros; lia]]|].
    + intros j s2 Hj (Hg2 & Hold & Hrow).
      destruct (Hsrc k j) as [Hread Hvalid]; [lia|lia|].
      rewrite (bind_lift_ok _ _ s2 _ Hread).
      destruct (current_setPixel W H s2 k j (f k j) Hg2) as (s3 & Hset & Hg3 & Hnew & Hother);
        [lia|lia|done|].
      exists s3. split; [done|]. split; [done|]. split.
      * intros r c Hr Hc. rewrite Hother by lia. by apply Hold.
      * intros c Hc. destruct (decide (c = j)) as [->|Hne]; [done|].
        rewrite Hother by lia. apply Hrow. lia.
    + exists s2. split; [done|]. split; [done|].
      intros r c Hr Hc. destruct (decide (r = k)) as [->|Hne].
      * apply Hrow. lia.
      * apply Hold; lia.
  - exists s'. split; [done|]. split; [done|].
    intros r c Hr Hc. apply Hpix; lia.
Qed.

Lemma wf_grid (g : Image.t) :
  Image.wf g → grid (Image.width g) (Image.height g) g.
Proof. intros (_ & _ & Hlen & Hpx). done. Qed.

Lemma setWidth_height (W H : Z) (g : Image.t) :
  0 < W → 0 < H → grid W H g →
  Current.setWidth H g = (Ok tt, Image.mk H W (Image.data g))
  ∧ grid H W (Image.mk H W (Image.data g)).
Proof.
  intros HW HH (Hw & Hh & Hlen & Hpx).
  unfold Current.setWidth, Current.update, Image.setWidth, Image.getLength.
  rewrite Hlen, Z.mod_mul, Z.div_mul by lia.
  destruct (Z.ltb_spec 0 H); [|lia]. simpl.
  split; [done|]. unfold grid. simpl. repeat split; [lia|done].
Qed.

(** What one call of [transpose] does to a well-formed grid. *)
Lemma transpose_spec (W H : Z) (g : Image.t) :
  0 < W → 0 < H → grid W H g →
  ∃ g', transpose g = (Ok tt, g') ∧ grid H W g'
        ∧ ∀ r c, 0 ≤ r < W → 0 ≤ c < H → pix g' r c = pix g c r.
Proof.
  intros HW HH Hg. pose proof Hg as (Hw & Hh & _).
  destruct (setWidth_height W H g HW HH Hg) as [Hset Hg1].
  unfold transpose.
  rewrite (bind_ok Current.copy _ g g g) by done.
  rewrite (bind_ok Current.getHeight _ g H g)
    by (unfold Current.getHeight, Image.getHeight; by rewrite Hh).
  rewrite (bind_ok _ _ _ _ _ Hset).
  rewrite (bind_ok Current.getHeight _ _ W (Image.mk H W (Image.data g))) by done.
  apply (fill_loop (λ row col, Image.getPixel g col row) (λ r c, pix g c r)); [done..|].
  intros r c Hr Hc. split.
  - by apply (getPixel_pix W H).
  - by destruct (grid_lookup W H g c r Hg).
Qed.

(** What one call of [rotateRight] does to a well-formed grid. *)
Lemma rotateRight_spec (W H : Z) (g : Image.t) :
  0 < W → 0 < H → grid W H g →
  ∃ g', rotateRight g = (Ok tt, g') ∧ grid H W g'
        ∧ ∀ r c, 0 ≤ r < W → 0 ≤ c < H → pix g' r c = pix g (H - c - 1) r.
Proof.
  intros HW HH Hg. pose proof Hg as (Hw & Hh & _).
  destruct (setWidth_height W H g HW HH Hg) as [Hset Hg1].
  unfold rotateRight.
  rewrite (bind_ok Current.copy _ g g g) by done.
  rewrite (bind_ok Current.getHeight _ g H g)
    by (unfold Current.getHeight, Image.getHeight; by rewrite Hh).
  rewrite (bind_ok _ _ _ _ _ Hset).
  rewrite (bind_ok Current.getHeight _ _ W (Image.mk H W (Image.data g))) by done.
  unfold Image.getHeight at 1. rewrite Hh.
  apply (fill_loop (λ row col, Image.getPixel g (H - col - 1) row)
                   (λ r c, pix g (H - c - 1) r)); [done..|].
  intros r c Hr Hc. split.
  - apply (getPixel_pix W H); [done|lia|lia].
  - destruct (grid_lookup W H g (H - c - 1) r Hg); [lia|lia|done].
Qed.

(** C5.  On a grid of at least one pixel, [transpose] swaps width and
    height and puts at (row, col) the pixel that the grid had at (col, row);
    a second [transpose] gives back the grid, square or not. *)
Theorem transpose_involution (g : Image.t) :
  Image.wf g →
  ∃ g', transpose g = (Ok tt, g')
        ∧ Image.width g' = Image.height g
        ∧ Image.height g' = Image.width g
        ∧ (∀ row col, 0 ≤ row < Image.height g' → 0 ≤ col < Image.width g' →
             Image.getPixel g' row col = Image.getPixel g col row)
        ∧ transpose g' = (Ok tt, g).
Proof.
  intros Hwf. pose proof Hwf as (HW & HH & _).
  pose proof (wf_grid g Hwf) as Hg.
  set (W := Image.width g) in *. set (H := Image.height g) in *.
  destruct (transpose_spec W H g HW HH Hg) as (g1 & Ht1 & Hg1 & Hp1).
  destruct (transpose_spec H W g1 HH HW Hg1) as (g2 & Ht2 & Hg2 & Hp2).
  pose proof Hg1 as (Hw1 & Hh1 & _).
  exists g1. split; [done|]. split; [done|]. split; [done|]. split.
  - intros row col Hr Hc. rewrite Hh1 in Hr. rewrite Hw1 in Hc.
    rewrite (getPixel_pix H W g1 row col) by done.
    rewrite (getPixel_pix W H g col row) by done.
    f_equal. by apply Hp1.
  - rewrite Ht2. f_equal. apply (image_ext W H); [done..|].
    intros r c Hr Hc. rewrite Hp2 by done. by apply Hp1.
Qed.

Lemma transpose_involution_witness :
  ∃ g', transpose six_pixels = (Ok tt, g')
        ∧ Image.width g' = 2
        ∧ Image.height g' = 3
        ∧ (∀ row col, 0 ≤ row < Image.height g' → 0 ≤ col < Image.width g' →
             Image.getPixel g' row col
             = Image.getPixel six_pixels col row)
        ∧ transpose g' = (Ok tt, six_pixels).
Proof.
  apply (transpose_involution six_pixels).
  unfold Image.wf. simpl. repeat split; try lia.
  repeat constructor.
Defined.

(** C6.  On a grid of at least one pixel, [rotateRight] swaps width and
    height and puts at (row, col) the pixel that the grid had at
    (old_height-1-col, row); four calls in a row give back the grid. *)
Theorem rotateRight_four_times (g : Image.t) :
  Image.wf g →
  (∃ g', rotateRight g = (Ok tt, g')
         ∧ Image.width g' = Image.height g
         ∧ Image.height g' = Image.width g
         ∧ ∀ row col, 0 ≤ row < Image.height g' → 0 ≤ col < Image.width g' →
             Image.getPixel g' row col
             = Image.getPixel g (Image.height g - 1 - col) row)
  ∧ (rotateRight;; rotateRight;; rotateRight;; rotateRight) g = (Ok tt, g).
Proof.
  intros Hwf. pose proof Hwf as (HW & HH & _).
  pose proof (wf_grid g Hwf) as Hg.
  set (W := Image.width g) in *. set (H := Image.height g) in *.
  destruct (rotateRight_spec W H g HW HH Hg) as (g1 & Ht1 & Hg1 & Hp1).
  destruct (rotateRight_spec H W g1 HH HW Hg1) as (g2 & Ht2 & Hg2 & Hp2).
  destruct (rotateRight_spec W H g2 HW HH Hg2) as (g3 & Ht3 & Hg3 & Hp3).
  destruct (rotateRight_spec H W g3 HH HW Hg3) as (g4 & Ht4 & Hg4 & Hp4).
  pose proof Hg1 as (Hw1 & Hh1 & _).
  split.
  - exists g1. split; [done|]. split; [done|]. split; [done|].
    intros row col Hr Hc. rewrite Hh1 in Hr. rewrite Hw1 in Hc.
    rewrite (getPixel_pix H W g1 row col) by done.
    rewrite (getPixel_pix W H g (H - 1 - col) row) by (done || lia).
    f_equal. rewrite Hp1 by done. f_equal. lia.
  - rewrite (bind_ok _ _ _ _ _ Ht1), (bind_ok _ _ _ _ _ Ht2), (bind_ok _ _ _ _ _ Ht3).
    rewrite Ht4. f_equal. apply (image_ext W H); [done..|].
    intros r c Hr Hc.
    rewrite Hp4, Hp3, Hp2, Hp1 by lia. f_equal; lia.
Qed.

Lemma rotateRight_four_times_witness :
  (rotateRight;; rotateRight;; rotateRight;; rotateRight)
    six_pixels
  = (Ok tt, six_pixels).
Proof.
  apply (rotateRight_four_times six_pixels).
  unfold Image.wf. simpl. repeat split; try lia.
  repeat constructor.
Defined.

(** ** Decimal representations *)

Lemma str_digits_spec (fuel : nat) :
  ∀ n acc, (0 < fuel)%nat → 0 ≤ n < 10 ^ Z.of_nat fuel →
  ∃ ds, str_digits fuel n acc = ds ++ acc
        ∧ ds ≠ []
        ∧ Forall (λ d, is_digit d = true) ds
        ∧ digits_value 0 ds = n
        ∧ ∀ k : nat, (0 < k)%nat → n < 10 ^ Z.of_nat k → (length ds ≤ k)%nat.
Proof.
  induction fuel as [|fuel IH]; intros n acc Hfuel Hn; [lia|].
  - simpl str_digits.
    assert (0 ≤ n mod 10 < 10) as Hmod by (apply Z.mod_pos_bound; lia).
    assert (is_digit (48 + n mod 10) = true) as Hdig.
    { unfold is_digit. apply andb_true_intro. split; lia. }
    destruct (Z.eqb_spec (n / 10) 0) as [Hz|Hnz].
    + exists [48 + n mod 10]. split; [done|]. split; [done|].
      split; [by constructor|]. split.
      * unfold digits_value. simpl. pose proof (Z.div_mod n 10). lia.
      * intros k Hk _. simpl. lia.
    + assert (0 ≤ n / 10 < 10 ^ Z.of_nat fuel) as Hq.
      { split; [apply Z.div_pos; lia|].
        apply Z.div_lt_upper_bound; [lia|].
        rewrite Nat2Z.inj_succ, Z.pow_succ_r in Hn by lia. lia. }
      assert (0 < fuel)%nat as Hfuel'.
      { destruct fuel; [|lia]. change (10 ^ Z.of_nat 0) with 1 in Hq. lia. }
      destruct (IH (n / 10) ((48 + n mod 10) :: acc) Hfuel' Hq)
        as (ds & Heq & Hne & Hds & Hval & Hlen).
      exists (ds ++ [48 + n mod 10]). split; [by rewrite Heq, <- app_assoc|].
      split; [by destruct ds|]. split; [apply Forall_app; split; [done|by constructor]|].
      split.
      * unfold digits_value in *. rewrite foldl_app, Hval. simpl.
        pose proof (Z.div_mod n 10). lia.
      * intros k Hk Hnk. rewrite length_app. simpl.
        destruct k as [|k]; [lia|].
        destruct k as [|k].
        { change (10 ^ Z.of_nat 1) with 10 in Hnk.
          exfalso. apply Hnz. apply Z.div_small. lia. }
        assert (length ds ≤ S k)%nat; [|lia].
        apply Hlen; [lia|].
        apply Z.div_lt_upper_bound; [lia|].
        rewrite (Nat2Z.inj_succ (S k)), Z.pow_succ_r in Hnk by lia. lia.
Qed.

Lemma digits_fuel_enough (n : Z) : 0 ≤ n → n < 10 ^ Z.of_nat (digits_fuel n).
Proof.
  intros Hn. unfold digits_fuel.
  rewrite Nat2Z.inj_succ, Z2Nat.id by apply Z.log2_nonneg.
  destruct (decide (n = 0)) as [->|Hne]; [done|].
  pose proof (Z.log2_spec n ltac:(lia)) as [_ Hlt].
  eapply Z.lt_le_trans; [exact Hlt|].
  apply Z.pow_le_mono_l. split; [lia|lia].
Qed.

Lemma str_int_spec (n : Z) :
  0 ≤ n →
  str_int n ≠ []
  ∧ Forall (λ d, is_digit d = true) (str_int n)
  ∧ digits_value 0 (str_int n) = n
  ∧ ∀ k : nat, (0 < k)%nat → n < 10 ^ Z.of_nat k → (length (str_int n) ≤ k)%nat.
Proof.
  intros Hn. unfold str_int. destruct (Z.ltb_spec n 0) as [|_]; [lia|].
  destruct (str_digits_spec (digits_fuel n) n [])
    as (ds & Heq & Hne & Hds & Hval & Hlen).
  { unfold digits_fuel. lia. }
  { split; [done|]. by apply digits_fuel_enough. }
  rewrite Heq, app_nil_r. done.
Qed.

Lemma scan_digits_all (ds : pystr) :
  Forall (λ d, is_digit d = true) ds →
  ∀ a, scan_digits a false ds = Some (digits_value a ds, []).
Proof.
  induction 1 as [|d ds Hd _ IH]; intros a; simpl; [done|].
  rewrite Hd. apply IH.
Qed.

Lemma is_digit_inv (d : Z) : is_digit d = true → 48 ≤ d ≤ 57.
Proof. unfold is_digit. intros [? ?]%andb_prop. lia. Qed.

Lemma py_int_digits (ds : pystr) :
  ds ≠ [] → Forall (λ d, is_digit d = true) ds →
  py_int ds = Ok (digits_value 0 ds).
Proof.
  intros Hne Hds. destruct ds as [|d ds]; [done|].
  pose proof (Forall_inv Hds) as Hd. simpl in Hd.
  pose proof (is_digit_inv d Hd) as Hrange.
  unfold py_int.
  assert (skip_spaces (d :: ds) = d :: ds) as ->.
  { simpl. assert (is_space d = false) as ->; [|done].
    unfold is_space.
    repeat (apply orb_false_intro); try (apply andb_false_iff); lia. }
  destruct (Z.eqb_spec d 43); [lia|]. destruct (Z.eqb_spec d 45); [lia|].
  rewrite Hd, (scan_digits_all _ Hds). done.
Qed.

Lemma py_int_str_int (n : Z) : 0 ≤ n → py_int (str_int n) = Ok n.
Proof.
  intros Hn. destruct (str_int_spec n Hn) as (Hne & Hds & Hval & _).
  rewrite py_int_digits by done. by rewrite Hval.
Qed.

(** ** Hiding a character code in a pixel *)

Lemma encode_channel_range (channel digit : Z) :
  0 ≤ channel ≤ 255 → 0 ≤ digit ≤ 9 →
  encode_channel channel digit mod 10 = digit
  ∧ 0 ≤ encode_channel channel digit ≤ 255.
Proof.
  intros Hc Hd. unfold encode_channel. cbv zeta.
  destruct (Z.ltb_spec 255 (channel / 10 * 10 + digit)) as [Hov|Hov];
    revert Hov; Z.div_mod_to_equations; lia.
Qed.

Lemma is_channel_inv (c : Z) : Image.is_channel c = true → 0 ≤ c ≤ 255.
Proof. unfold Image.is_channel. intros [? ?]%andb_prop. lia. Qed.

Lemma is_channel_intro (c : Z) : 0 ≤ c ≤ 255 → Image.is_channel c = true.
Proof. intros Hc. unfold Image.is_channel. apply andb_true_intro. split; lia. Qed.

Lemma hide_spec (p : pixel) (c : Z) :
  Image.is_pixel p = true → 0 ≤ c ≤ 255 →
  Image.is_pixel (hide p c) = true ∧ hidden (hide p c) = c.
Proof.
  destruct p as [[r g] b]. intros Hp Hc. simpl in Hp.
  apply andb_prop in Hp as [[Hr Hg]%andb_prop Hb].
  apply is_channel_inv in Hr, Hg, Hb.
  assert (0 ≤ c / 100 ≤ 9) as Ha by (Z.div_mod_to_equations; lia).
  assert (0 ≤ (c / 10) mod 10 ≤ 9) as Hb' by (Z.div_mod_to_equations; lia).
  assert (0 ≤ c mod 10 ≤ 9) as Hc' by (Z.div_mod_to_equations; lia).
  destruct (encode_channel_range r _ Hr Ha) as [Er Rr].
  destruct (encode_channel_range g _ Hg Hb') as [Eg Rg].
  destruct (encode_channel_range b _ Hb Hc') as [Eb Rb].
  unfold hide, hidden. split.
  - simpl. rewrite !is_channel_intro by done. done.
  - rewrite Er, Eg, Eb. Z.div_mod_to_equations; lia.
Qed.

Lemma encode_pixel_spec (s : Image.t) (pos c : Z) (p : pixel) :
  0 ≤ pos → Image.data s !! Z.to_nat pos = Some p →
  Image.is_pixel p = true → 0 ≤ c ≤ 255 →
  _encode_pixel pos c s = (Ok tt, Image.write s pos (hide p c)).
Proof.
  intros Hpos Hlook Hp Hc.
  destruct (hide_spec p c Hp Hc) as [Hvalid _].
  assert (Image.in_flat s pos = true) as Hin.
  { apply lookup_lt_Some in Hlook. unfold Image.in_flat, Image.getLength, len.
    apply andb_true_intro. split; lia. }
  unfold _encode_pixel.
  rewrite (bind_lift_ok (assert_ (0 <=? c)) _ s tt)
    by (destruct (Z.leb_spec 0 c); [done|lia]).
  rewrite (bind_lift_ok (assert_ (c <=? 255)) _ s tt)
    by (destruct (Z.leb_spec c 255); [done|lia]).
  rewrite (bind_ok (Current.getFlatPixel pos) _ s p s).
  2:{ unfold Current.getFlatPixel, Image.getFlatPixel, Image.read.
      by rewrite Hin, Hlook. }
  destruct p as [[r g] b].
  unfold Current.setFlatPixel, Current.update, Image.setFlatPixel.
  change (encode_channel r (c / 100), encode_channel g ((c / 10) `mod` 10),
          encode_channel b (c `mod` 10)) with (hide (r, g, b) c).
  by rewrite Hin, Hvalid.
Qed.

Lemma py_getitem_lookup {A : Type} (l : list A) (i : Z) (a : A) :
  0 ≤ i → l !! Z.to_nat i = Some a → py_getitem l i = Ok a.
Proof.
  intros Hi Hlook. unfold py_getitem.
  pose proof (lookup_lt_Some _ _ _ Hlook) as Hlt.
  destruct (Z.ltb_spec i 0); [lia|].
  destruct (Z.leb_spec 0 i); [|lia].
  destruct (Z.ltb_spec i (len l)) as [|Hge]; [|unfold len in Hge; lia].
  simpl. by rewrite Hlook.
Qed.

(** [_ASCII_encode] hides the codes in the first pixels, in order, and keeps
    the shape of the image. *)
Lemma ASCII_encode_spec (codes : list Z) (s : Image.t) :
  codes ≠ [] → Forall (λ c, 0 ≤ c ≤ 255) codes →
  len codes ≤ len (Image.data s) →
  Forall (λ p, Image.is_pixel p = true) (Image.data s) →
  ∃ s', _ASCII_encode codes s = (Ok tt, s')
        ∧ Image.width s' = Image.width s ∧ Image.height s' = Image.height s
        ∧ ∀ i c, codes !! i = Some c → hidden <$> Image.data s' !! i = Some c.
Proof.
  intros Hne Hcodes Hfit Hpx. unfold _ASCII_encode.
  rewrite (bind_lift_ok _ _ s tt).
  2:{ destruct codes as [|c0 codes]; [done|]. simpl.
      pose proof (Forall_inv Hcodes) as H0. simpl in H0.
      destruct (Z.leb_spec 0 c0), (Z.leb_spec c0 255); simpl; try done; lia. }
  unfold range.
  destruct (for_range
    (λ k s', Image.width s' = Image.width s ∧ Image.height s' = Image.height s
             ∧ length (Image.data s') = length (Image.data s)
             ∧ Forall (λ p, Image.is_pixel p = true) (Image.data s')
             ∧ ∀ i c, Z.of_nat i < k → codes !! i = Some c →
                      hidden <$> Image.data s' !! i = Some c)
    (λ x, value ← lift (py_getitem codes x); _encode_pixel x value)
    0 (len codes) s) as (s' & Hfor & Hw & Hh & _ & _ & Hall).
  - unfold len. lia.
  - intros k s1 Hk (Hw & Hh & Hlen & Hpx1 & Hdone).
    destruct (lookup_lt_is_Some_2 codes (Z.to_nat k)) as [c Hc];
      [unfold len in Hk; lia|].
    destruct (lookup_lt_is_Some_2 (Image.data s1) (Z.to_nat k)) as [p Hp];
      [unfold len in Hk, Hfit; lia|].
    pose proof (Forall_lookup_1 _ _ _ _ Hcodes Hc) as Hcr. simpl in Hcr.
    pose proof (Forall_lookup_1 _ _ _ _ Hpx1 Hp) as Hpv. simpl in Hpv.
    destruct (hide_spec p c Hpv Hcr) as [Hvalid Hhidden].
    rewrite (bind_lift_ok _ _ s1 c) by (apply py_getitem_lookup; [lia|done]).
    rewrite (encode_pixel_spec s1 k c p) by (done || lia).
    eexists. split; [done|]. unfold Image.write. simpl.
    rewrite length_insert. repeat split; try done.
    + by apply Forall_insert.
    + intros i c' Hi Hc'. destruct (decide (i = Z.to_nat k)) as [->|Hne'].
      * rewrite list_lookup_insert_eq by (apply lookup_lt_Some in Hp; lia).
        simpl. rewrite Hhidden. congruence.
      * rewrite list_lookup_insert_ne by done. apply Hdone; [lia|done].
  - repeat split; try done. intros i c Hi. lia.
  - exists s'. rewrite Z.add_0_l in Hall. repeat split; try done.
    intros i c Hc. apply Hall; [|done].
    apply lookup_lt_Some in Hc. unfold len. lia.
Qed.

(** [_pixels_to_ASCII] reads the channel-digit number of every pixel. *)
Lemma decode_pixel_spec (s : Image.t) (pos : Z) (p : pixel) :
  0 ≤ pos → Image.data s !! Z.to_nat pos = Some p →
  _decode_pixel pos s = (Ok (hidden p), s).
Proof.
  intros Hpos Hlook. unfold _decode_pixel.
  rewrite (bind_ok (Current.getFlatPixel pos) _ s p s).
  - by destruct p as [[r g] b].
  - unfold Current.getFlatPixel, Image.getFlatPixel, Image.read.
    apply lookup_lt_Some in Hlook as Hlt.
    assert (Image.in_flat s pos = true) as ->.
    { unfold Image.in_flat, Image.getLength, len. apply andb_true_intro. split; lia. }
    by rewrite Hlook.
Qed.

Lemma pixels_to_ASCII_spec (s : Image.t) :
  _pixels_to_ASCII s = (Ok (hidden <$> Image.data s), s).
Proof.
  unfold _pixels_to_ASCII.
  rewrite (bind_ok Current.getLength _ s (len (Image.data s)) s) by done.
  unfold range.
  destruct (for_fold_range
    (λ k acc s', s' = s ∧ 0 ≤ k ∧ acc = hidden <$> take (Z.to_nat k) (Image.data s))
    (λ list x, v ← _decode_pixel x; ret (list ++ [v]))
    0 (len (Image.data s)) [] s) as (acc & s' & Hfor & -> & _ & ->).
  - unfold len. lia.
  - intros k acc s1 Hk (-> & Hk0 & ->).
    destruct (lookup_lt_is_Some_2 (Image.data s) (Z.to_nat k)) as [p Hp];
      [unfold len in Hk; lia|].
    rewrite (bind_ok _ _ _ _ _ (decode_pixel_spec s k p Hk0 Hp)).
    eexists _, s. split; [done|]. split; [done|]. split; [lia|].
    replace (Z.to_nat (k + 1)) with (S (Z.to_nat k)) by lia.
    rewrite (take_S_r _ _ _ Hp), fmap_app. done.
  - done.
  - rewrite Hfor. do 3 f_equal. rewrite Z.add_0_l. unfold len.
    rewrite Nat2Z.id. apply take_ge. lia.
Qed.

(** ** Reading a frame back *)

Lemma prefix_of_lookups {A : Type} (pre : list A) :
  ∀ l, (∀ i a, pre !! i = Some a → l !! i = Some a) →
       l = pre ++ drop (length pre) l.
Proof.
  induction pre as [|a pre IH]; intros l Hl; [done|].
  destruct l as [|b l].
  - specialize (Hl 0%nat a eq_refl). done.
  - pose proof (Hl 0%nat a eq_refl) as H0. simpl in H0. injection H0 as ->.
    simpl. f_equal. apply IH. intros i c Hc. apply (Hl (S i) c Hc).
Qed.

Lemma list_index_app (ds rest : list Z) (v : Z) :
  Forall (λ d, d ≠ v) ds → list_index (ds ++ v :: rest) v = Ok (len ds).
Proof.
  induction 1 as [|d ds Hd _ IH]; simpl.
  - by rewrite Z.eqb_refl.
  - destruct (Z.eqb_spec d v); [done|]. rewrite IH. simpl. f_equal.
    unfold len. simpl length. lia.
Qed.

Lemma py_slice_mid {A : Type} (l1 l2 l3 : list A) :
  py_slice (l1 ++ l2 ++ l3) (len l1) (len l1 + len l2) = l2.
Proof.
  unfold py_slice, slice_bound, len. rewrite !length_app.
  destruct (Z.ltb_spec (Z.of_nat (length l1)) 0); [lia|].
  destruct (Z.ltb_spec (Z.of_nat (length l1) + Z.of_nat (length l2)) 0); [lia|].
  rewrite !Z.min_l by lia.
  replace (Z.to_nat (Z.of_nat (length l1) + Z.of_nat (length l2) - Z.of_nat (length l1)))
    with (length l2) by lia.
  rewrite Nat2Z.id, drop_app_length, take_app_length. done.
Qed.

Lemma chr_each_id (l : list Z) :
  Forall (λ c, 0 ≤ c ≤ 255) l → chr_each l = Ok l.
Proof.
  induction 1 as [|c l Hc _ IH]; simpl; [done|].
  unfold chr. destruct (Z.leb_spec 0 c), (Z.ltb_spec c 1114112); try lia.
  simpl. by rewrite IH.
Qed.

Lemma translate_ASCII_id (l : list Z) :
  l ≠ [] → Forall (λ c, 0 ≤ c ≤ 255) l → _translate_ASCII l = Ok l.
Proof.
  intros Hne Hl. unfold _translate_ASCII.
  destruct l as [|c l]; [done|].
  pose proof (Forall_inv Hl) as Hc. simpl in Hc.
  assert (eq_True (_is_ASCII (c :: l)) = true) as ->.
  { simpl. destruct (Z.leb_spec 0 c), (Z.leb_spec c 255); try lia. done. }
  simpl assert_. change (chr_each (c :: l) = Ok (c :: l)).
  by apply chr_each_id.
Qed.

Lemma digits_are_codes (ds : pystr) :
  Forall (λ d, is_digit d = true) ds →
  Forall (λ c, 0 ≤ c ≤ 255) ds ∧ Forall (λ d, d ≠ 126) ds.
Proof.
  intros Hds. split; eapply Forall_impl; try exact Hds;
    intros d Hd%is_digit_inv; simpl; lia.
Qed.

(** The list of channel-digit numbers starts with a marker for a length
    [n >= 1]: [_isMarker] accepts it and [_getLengthCode] finds [n]. *)
Lemma marker_accepted (n : Z) (rest : list Z) :
  1 ≤ n ≤ 999999 →
  let thelist := [125; 126] ++ str_int n ++ [126; 123] ++ rest in
  _isMarker thelist = Ok true ∧ _getLengthCode thelist = Ok (PyInt n).
Proof.
  intros Hn thelist.
  destruct (str_int_spec n ltac:(lia)) as (Hne & Hds & Hval & Hlen).
  destruct (digits_are_codes _ Hds) as [Hcodes Hno].
  assert (len (str_int n) ≤ 6) as Hsix.
  { specialize (Hlen 6%nat ltac:(lia)). unfold len.
    change (10 ^ Z.of_nat 6) with 1000000 in Hlen. lia. }
  assert (drop 2 thelist = str_int n ++ 126 :: 123 :: rest) as Hrest by done.
  assert (list_index (drop 2 thelist) 126 = Ok (len (str_int n))) as Hidx.
  { rewrite Hrest. by apply list_index_app. }
  assert (_translate_ASCII (str_int n) = Ok (str_int n)) as Htr
    by (by apply translate_ASCII_id).
  assert (_Code_to_Int (str_int n) = Ok (PyInt n)) as Hint.
  { unfold _Code_to_Int. by rewrite py_int_str_int by lia. }
  split.
  - unfold _isMarker. change (eq_False (_is_ASCII thelist)) with false.
    change (take 2 thelist) with [125; 126].
    rewrite bool_decide_eq_true_2 by done. cbv iota. simpl negb. cbv iota.
    rewrite Hidx. change (Ok (len (str_int n)) ≫= ?k) with (k (len (str_int n))).
    cbv beta zeta.
    assert (py_getitem thelist (len (str_int n) + 2 + 1) = Ok 123) as ->.
    { apply py_getitem_lookup; [unfold len; lia|].
      unfold thelist, len.
      replace (Z.to_nat (Z.of_nat (length (str_int n)) + 2 + 1))
        with (2 + (length (str_int n) + 1))%nat by lia.
      change ([125; 126] ++ ?l) with (125 :: 126 :: l).
      simpl lookup. rewrite lookup_app_r by lia.
      by replace (length (str_int n) + 1 - length (str_int n))%nat with 1%nat by lia. }
    change (Ok 123 ≫= ?k) with (k 123). cbv beta. simpl negb. cbv iota.
    assert (py_slice thelist 2 (len (str_int n) + 2) = str_int n) as ->.
    { replace (len (str_int n) + 2) with (len [125; 126] + len (str_int n))
        by (unfold len; simpl; lia).
      apply (py_slice_mid [125; 126] (str_int n) ([126; 123] ++ rest)). }
    destruct (Z.ltb_spec 6 (len (str_int n))); [lia|].
    rewrite Htr. change (Ok (str_int n) ≫= ?k) with (k (str_int n)). cbv beta.
    rewrite Hint. change (Ok (PyInt n) ≫= ?k) with (k (PyInt n)). cbv beta.
    simpl as_int. destruct (Z.eqb_spec n 0); [lia|done].
  - unfold _getLengthCode. change (eq_True (_is_ASCII thelist)) with true.
    simpl assert_. change (Ok tt ≫= ?k) with (k tt). cbv beta.
    rewrite Hidx. change (Ok (len (str_int n)) ≫= ?k) with (k (len (str_int n))).
    cbv beta zeta. rewrite Hrest.
    assert (py_slice (str_int n ++ 126 :: 123 :: rest) 0 (len (str_int n)) = str_int n) as ->.
    { apply (py_slice_mid [] (str_int n) (126 :: 123 :: rest)). }
    rewrite Htr. done.
Qed.

Lemma text_to_ASCII_id (text : pystr) : _text_to_ASCII text = text.
Proof. unfold _text_to_ASCII, ord. apply list_fmap_id. Qed.

(** ** Block averages *)

Lemma try_except_ok {A : Type} (m h : M A) (e : exn) s a s' :
  m s = (Ok a, s') → try_except m e h s = (Ok a, s').
Proof. intros H. unfold try_except. by rewrite H. Qed.

Lemma try_except_caught {A : Type} (m h : M A) (e : exn) s s' :
  m s = (Raise e, s') → try_except m e h s = h s'.
Proof. intros H. unfold try_except. rewrite H. by destruct e. Qed.

Lemma sums_fold (ps : list pixel) :
  ∀ r g b n,
  foldl add_pixel (r, g, b, n) ps
  = (r + channel_sum chan_r ps, g + channel_sum chan_g ps,
     b + channel_sum chan_b ps, n + len ps).
Proof.
  induction ps as [|[[pr pg] pb] ps IH]; intros r g b n.
  - unfold len. simpl. by rewrite !Z.add_0_r.
  - simpl foldl. rewrite IH. unfold channel_sum, chan_r, chan_g, chan_b, len.
    simpl. f_equal; [f_equal; [f_equal|]|]; lia.
Qed.

Lemma channel_sum_bounds (f : pixel → Z) (ps : list pixel) :
  Forall (λ p, 0 ≤ f p ≤ 255) ps → 0 ≤ channel_sum f ps ≤ 255 * len ps.
Proof.
  induction 1 as [|p ps Hp _ IH]; unfold len in *; simpl; lia.
Qed.

Lemma is_pixel_channels (p : pixel) :
  Image.is_pixel p = true →
  0 ≤ chan_r p ≤ 255 ∧ 0 ≤ chan_g p ≤ 255 ∧ 0 ≤ chan_b p ≤ 255.
Proof.
  destruct p as [[r g] b]. simpl.
  intros [[Hr Hg]%andb_prop Hb]%andb_prop.
  apply is_channel_inv in Hr, Hg, Hb. done.
Qed.

Lemma quot_mean_range (total n : Z) :
  0 < n → 0 ≤ total ≤ 255 * n → 0 ≤ Z.quot total n ≤ 255.
Proof.
  intros Hn Ht. rewrite Z.quot_div_nonneg by lia. split.
  - apply Z.div_pos; lia.
  - apply Z.div_le_upper_bound; lia.
Qed.

Lemma mean_rgb_is_pixel (ps : list pixel) :
  ps ≠ [] → Forall (λ p, Image.is_pixel p = true) ps →
  Image.is_pixel (mean_rgb ps) = true.
Proof.
  intros Hne Hps.
  assert (0 < len ps) as Hn by (destruct ps; [done|unfold len; simpl; lia]).
  unfold mean_rgb. simpl.
  rewrite !is_channel_intro; [done|..]; apply quot_mean_range; try done;
    apply channel_sum_bounds; eapply Forall_impl; try exact Hps;
    intros p Hp; simpl in Hp; apply is_pixel_channels in Hp; tauto.
Qed.

Lemma getPixel_outside (s : Image.t) (r c : Z) :
  ¬ (0 ≤ r < Image.height s ∧ 0 ≤ c < Image.width s) →
  Image.getPixel s r c = Raise AssertionError.
Proof. intros Hn. unfold Image.getPixel. by rewrite in_grid_false. Qed.

Lemma setPixel_outside (s : Image.t) (r c : Z) (p : pixel) :
  ¬ (0 ≤ r < Image.height s ∧ 0 ≤ c < Image.width s) →
  Current.setPixel r c p s = (Raise AssertionError, s).
Proof.
  intros Hn. unfold Current.setPixel, Current.update, Image.setPixel.
  by rewrite in_grid_false.
Qed.

(** The inner reading loop of [_avgRGB] on row [k]: it adds the pixels of
    the row that lie in the image, and nothing for a row below the image. *)
Lemma avg_read_row (W H : Z) (s : Image.t) (k y step : Z) (acc : sums) :
  grid W H s → 0 ≤ k → 0 ≤ y → 0 ≤ step →
  for_fold (range2 y (y + step)) acc (λ acc j,
    try_except (pixel ← Current.getPixel k j; ret (add_pixel acc pixel))
               AssertionError (ret acc)) s
  = (Ok (foldl add_pixel acc
           (if decide (k < H) then pix s k <$> seqZ y (Z.min (y + step) W - y) else [])), s).
Proof.
  intros Hg Hk Hy Hstep. pose proof Hg as (Hw & Hh & _).
  unfold range2. replace (y + step - y) with step by lia.
  destruct (for_fold_range
    (λ j acc' s', s' = s ∧
       acc' = foldl add_pixel acc
                (if decide (k < H) then pix s k <$> seqZ y (Z.min j W - y) else []))
    (λ acc j, try_except (pixel ← Current.getPixel k j; ret (add_pixel acc pixel))
                         AssertionError (ret acc))
    y step acc s) as (acc' & s' & Hfor & -> & ->); [done| | |by rewrite Hfor].
  - intros j acc1 s1 Hj [-> ->].
    destruct (decide (k < H ∧ j < W)) as [[HkH HjW]|Hout].
    + exists (add_pixel (foldl add_pixel acc (pix s k <$> seqZ y (Z.min j W - y)))
                       (pix s k j)), s.
      split.
      * unfold try_except.
        rewrite (bind_ok (Current.getPixel k j) _ s (pix s k j) s).
        2:{ unfold Current.getPixel. by rewrite (getPixel_pix W H) by (done || lia). }
        rewrite decide_True by done. done.
      * split; [done|]. rewrite !decide_True by done.
        replace (Z.min (j + 1) W - y) with ((j - y) + 1) by lia.
        replace (Z.min j W - y) with (j - y) by lia.
        rewrite seqZ_app, fmap_app, foldl_app by lia.
        replace (y + (j - y)) with j by lia. done.
    + exists (foldl add_pixel acc
               (if decide (k < H) then pix s k <$> seqZ y (Z.min j W - y) else [])), s.
      split.
      * unfold try_except.
        rewrite (bind_raise (Current.getPixel k j) _ s AssertionError s); [done|].
        unfold Current.getPixel. rewrite getPixel_outside; [done|]. lia.
      * split; [done|]. destruct (decide (k < H)); [|done].
        by replace (Z.min (j + 1) W) with (Z.min j W) by lia.
  - split; [done|]. rewrite seqZ_nil by lia. by destruct (decide (k < H)).
Qed.

(** The two reading loops of [_avgRGB] sum the pixels of the clipped block. *)
Lemma avg_read_block (W H : Z) (s : Image.t) (x y step : Z) :
  grid W H s → 0 ≤ x → 0 ≤ y → 0 ≤ step →
  for_fold (range2 x (x + step)) ((0, 0, 0, 0) : sums) (λ acc k,
    try_except
      (for_fold (range2 y (y + step)) acc (λ acc j,
         try_except (pixel ← Current.getPixel k j; ret (add_pixel acc pixel))
                    AssertionError (ret acc)))
      AssertionError (ret acc)) s
  = (Ok (foldl add_pixel (0, 0, 0, 0) (block_pixels s x y step)), s).
Proof.
  intros Hg Hx Hy Hstep. pose proof Hg as (Hw & Hh & _).
  unfold range2 at 1. replace (x + step - x) with step by lia.
  destruct (for_fold_range
    (λ k acc' s', s' = s ∧
       acc' = foldl add_pixel (0, 0, 0, 0)
                (r ← seqZ x (Z.min k H - x); pix s r <$> seqZ y (Z.min (y + step) W - y)))
    (λ acc k,
       try_except
         (for_fold (range2 y (y + step)) acc (λ acc j,
            try_except (pixel ← Current.getPixel k j; ret (add_pixel acc pixel))
                       AssertionError (ret acc)))
         AssertionError (ret acc))
    x step ((0, 0, 0, 0) : sums) s) as (acc' & s' & Hfor & -> & ->); [done| | |].
  - intros k acc1 s1 Hk [-> ->]. eexists _, s. split.
    + apply try_except_ok. by apply (avg_read_row W H); try lia.
    + split; [done|]. destruct (decide (k < H)) as [HkH|HkH].
      * replace (Z.min (k + 1) H - x) with ((k - x) + 1) by lia.
        replace (Z.min k H - x) with (k - x) by lia.
        rewrite seqZ_app, bind_app, foldl_app by lia.
        replace (x + (k - x)) with k by lia.
        change (seqZ k 1) with [k]. simpl. by rewrite app_nil_r.
      * by replace (Z.min (k + 1) H) with (Z.min k H) by lia.
  - split; [done|]. by rewrite (seqZ_nil x) by lia.
  - rewrite Hfor. unfold block_pixels, block_rows, block_cols. by rewrite Hw, Hh.
Qed.

Lemma block_pixels_elem (W H : Z) (s : Image.t) (x y step : Z) (p : pixel) :
  grid W H s →
  p ∈ block_pixels s x y step ↔
  ∃ r c, p = pix s r c ∧ x ≤ r < Z.min (x + step) H ∧ y ≤ c < Z.min (y + step) W.
Proof.
  intros (Hw & Hh & _). unfold block_pixels, block_rows, block_cols.
  rewrite Hw, Hh, list_elem_of_bind. split.
  - intros (r & (c & -> & Hc%elem_of_seqZ)%list_elem_of_fmap & Hr%elem_of_seqZ).
    exists r, c. split; [done|]. lia.
  - intros (r & c & -> & Hr & Hc). exists r. split.
    + apply list_elem_of_fmap. exists c. split; [done|]. apply elem_of_seqZ. lia.
    + apply elem_of_seqZ. lia.
Qed.

Lemma block_pixels_valid (W H : Z) (s : Image.t) (x y step : Z) :
  grid W H s → 0 ≤ x → 0 ≤ y →
  Forall (λ p, Image.is_pixel p = true) (block_pixels s x y step).
Proof.
  intros Hg Hx Hy. apply Forall_forall. intros p Hp.
  apply (block_pixels_elem W H) in Hp as (r & c & -> & Hr & Hc); [|done].
  destruct (grid_lookup W H s r c Hg); [lia|lia|done].
Qed.

Lemma block_pixels_nonempty (W H : Z) (s : Image.t) (x y step : Z) :
  grid W H s → 0 ≤ x < H → 0 ≤ y < W → 0 < step →
  block_pixels s x y step ≠ [].
Proof.
  intros Hg Hx Hy Hstep Hnil.
  assert (pix s x y ∈ block_pixels s x y step) as Hin.
  { apply (block_pixels_elem W H); [done|]. exists x, y. split; [done|]. lia. }
  rewrite Hnil in Hin. by apply elem_of_nil in Hin.
Qed.

(** Two grids of the same shape that agree on a block have the same block
    pixels. *)
Lemma block_pixels_ext (W H : Z) (s1 s2 : Image.t) (x y step : Z) :
  grid W H s1 → grid W H s2 →
  (∀ r c, x ≤ r < Z.min (x + step) H → y ≤ c < Z.min (y + step) W →
          pix s1 r c = pix s2 r c) →
  block_pixels s1 x y step = block_pixels s2 x y step.
Proof.
  intros (Hw1 & Hh1 & _) (Hw2 & Hh2 & _) Hagree.
  unfold block_pixels, block_rows, block_cols. rewrite Hw1, Hh1, Hw2, Hh2.
  apply Forall_bind_ext, Forall_forall. intros r Hr%elem_of_seqZ.
  apply Forall_fmap_ext, Forall_forall. intros c Hc%elem_of_seqZ.
  apply Hagree; lia.
Qed.

(** The inner writing loop of [_avgRGB] on row [k]. *)
Lemma avg_write_row (W H : Z) (s : Image.t) (k y step : Z) (p : pixel) :
  grid W H s → 0 ≤ k → 0 ≤ y → 0 ≤ step → Image.is_pixel p = true →
  ∃ s', for_ (range2 y (y + step)) (λ j,
          try_except (Current.setPixel k j p) AssertionError (ret tt)) s
        = (Ok tt, s')
        ∧ grid W H s'
        ∧ (∀ r c, 0 ≤ r < H → 0 ≤ c < W → r = k ∧ y ≤ c < y + step →
                  pix s' r c = p)
        ∧ (∀ r c, 0 ≤ r < H → 0 ≤ c < W → ¬ (r = k ∧ y ≤ c < y + step) →
                  pix s' r c = pix s r c).
Proof.
  intros Hg Hk Hy Hstep Hp.
  unfold range2. replace (y + step - y) with step by lia.
  apply (for_range
    (λ j s', grid W H s'
       ∧ (∀ r c, 0 ≤ r < H → 0 ≤ c < W → r = k ∧ y ≤ c < j → pix s' r c = p)
       ∧ (∀ r c, 0 ≤ r < H → 0 ≤ c < W → ¬ (r = k ∧ y ≤ c < j) →
                 pix s' r c = pix s r c))); [done| |].
  - intros j s1 Hj (Hg1 & Hin & Hout). pose proof Hg1 as (Hw1 & Hh1 & _).
    destruct (decide (k < H ∧ j < W)) as [[HkH HjW]|Hno].
    + destruct (current_setPixel W H s1 k j p Hg1) as (s2 & Hset & Hg2 & Hnew & Hother);
        [lia|lia|done|].
      exists s2. split; [by apply try_except_ok|]. split; [done|]. split.
      * intros r c Hr Hc [-> Hcj]. destruct (decide (c = j)) as [->|Hne]; [done|].
        rewrite Hother by lia. apply Hin; lia.
      * intros r c Hr Hc Hnot. rewrite Hother by lia. apply Hout; lia.
    + exists s1. split.
      * rewrite (try_except_caught _ _ _ s1 s1); [done|].
        apply setPixel_outside. lia.
      * split; [done|]. split.
        -- intros r c Hr Hc [-> Hcj]. apply Hin; lia.
        -- intros r c Hr Hc Hnot. apply Hout; lia.
  - split; [done|]. split; [intros; lia|done].
Qed.

(** The two writing loops of [_avgRGB]: the pixels of the block that lie in
    the image get the colour, the others keep theirs. *)
Lemma avg_write_block (W H : Z) (s : Image.t) (x y step : Z) (p : pixel) :
  grid W H s → 0 ≤ x → 0 ≤ y → 0 ≤ step → Image.is_pixel p = true →
  ∃ s', for_ (range2 x (x + step)) (λ k,
          try_except
            (for_ (range2 y (y + step)) (λ j,
               try_except (Current.setPixel k j p) AssertionError (ret tt)))
            AssertionError (ret tt)) s
        = (Ok tt, s')
        ∧ grid W H s'
        ∧ (∀ r c, 0 ≤ r < H → 0 ≤ c < W → x ≤ r < x + step ∧ y ≤ c < y + step →
                  pix s' r c = p)
        ∧ (∀ r c, 0 ≤ r < H → 0 ≤ c < W → ¬ (x ≤ r < x + step ∧ y ≤ c < y + step) →
                  pix s' r c = pix s r c).
Proof.
  intros Hg Hx Hy Hstep Hp.
  unfold range2 at 1. replace (x + step - x) with step by lia.
  apply (for_range
    (λ k s', grid W H s'
       ∧ (∀ r c, 0 ≤ r < H → 0 ≤ c < W → x ≤ r < k ∧ y ≤ c < y + step →
                 pix s' r c = p)
       ∧ (∀ r c, 0 ≤ r < H → 0 ≤ c < W → ¬ (x ≤ r < k ∧ y ≤ c < y + step) →
                 pix s' r c = pix s r c))); [done| |].
  - intros k s1 Hk (Hg1 & Hin & Hout).
    destruct (avg_write_row W H s1 k y step p Hg1) as (s2 & Hrow & Hg2 & Hnew & Hother);
      [lia|lia|lia|done|].
    exists s2. split; [by apply try_except_ok|]. split; [done|]. split.
    + intros r c Hr Hc [Hrk Hcy]. destruct (decide (r = k)) as [->|Hne].
      * by apply Hnew.
      * rewrite Hother by lia. apply Hin; lia.
    + intros r c Hr Hc Hnot. rewrite Hother by lia. apply Hout; lia.
  - split; [done|]. split; [intros; lia|done].
Qed.

(** One call of [_avgRGB] at a corner inside the image: the pixels of the
    clipped block become their truncated mean, computed from the image as it
    was before the call. *)
Lemma avgRGB_spec (W H : Z) (s : Image.t) (x y step : Z) :
  grid W H s → 0 ≤ x < H → 0 ≤ y < W → 0 < step →
  ∃ s', _avgRGB x y step s = (Ok tt, s')
        ∧ grid W H s'
        ∧ (∀ r c, 0 ≤ r < H → 0 ≤ c < W → x ≤ r < x + step ∧ y ≤ c < y + step →
                  pix s' r c = mean_rgb (block_pixels s x y step))
        ∧ (∀ r c, 0 ≤ r < H → 0 ≤ c < W → ¬ (x ≤ r < x + step ∧ y ≤ c < y + step) →
                  pix s' r c = pix s r c).
Proof.
  intros Hg Hx Hy Hstep.
  pose proof (block_pixels_nonempty W H s x y step Hg Hx Hy Hstep) as Hne.
  pose proof (block_pixels_valid W H s x y step Hg ltac:(lia) ltac:(lia)) as Hvalid.
  pose proof (mean_rgb_is_pixel _ Hne Hvalid) as Hmean.
  assert (len (block_pixels s x y step) ≠ 0) as Hcount.
  { unfold len. destruct (block_pixels s x y step); [done|]. simpl. lia. }
  unfold _avgRGB.
  rewrite (bind_ok _ _ _ _ _ (avg_read_block W H s x y step Hg ltac:(lia) ltac:(lia) ltac:(lia))).
  rewrite sums_fold, !Z.add_0_l.
  unfold int_div. destruct (Z.eqb_spec (len (block_pixels s x y step)) 0); [done|].
  rewrite !(bind_lift_ok _ _ s _ eq_refl).
  apply (avg_write_block W H s x y step _ Hg); [lia|lia|lia|exact Hmean].
Qed.

(** ** Pixellation *)

Lemma corner_in_block (step i r : Z) :
  0 < step → i * step ≤ r < i * step + step → corner r step = i * step.
Proof.
  intros Hstep Hr. unfold corner. f_equal. symmetry.
  apply (Z.div_unique r step i (r - i * step)); lia.
Qed.

Lemma blocks_cover (n step : Z) :
  0 < step → 0 ≤ n →
  0 ≤ (n - 0 + step - 1) / step
  ∧ n ≤ (n - 0 + step - 1) / step * step
  ∧ ∀ i, 0 ≤ i < (n - 0 + step - 1) / step → i * step < n.
Proof.
  intros Hstep Hn.
  pose proof (Z.div_mod (n - 0 + step - 1) step ltac:(lia)) as Hdm.
  pose proof (Z.mod_pos_bound (n - 0 + step - 1) step Hstep) as Hmod.
  set (q := (n - 0 + step - 1) / step) in *.
  split; [apply Z.div_pos; lia|]. split; [nia|].
  intros i Hi. nia.
Qed.

(** One row of blocks. *)
Lemma pixellate_block_row (W H : Z) (g s : Image.t) (i step : Z) :
  0 < W → 0 < H → 0 < step → 0 ≤ i → i * step < H →
  grid W H g → grid W H s →
  (∀ r c, 0 ≤ r < H → 0 ≤ c < W → r < i * step →
          pix s r c = mean_rgb (block_pixels g (corner r step) (corner c step) step)) →
  (∀ r c, 0 ≤ r < H → 0 ≤ c < W → i * step ≤ r → pix s r c = pix g r c) →
  ∃ s', for_ (range3 0 W step) (λ y, _avgRGB (0 + i * step) y step) s = (Ok tt, s')
        ∧ grid W H s'
        ∧ (∀ r c, 0 ≤ r < H → 0 ≤ c < W → r < (i + 1) * step →
             pix s' r c = mean_rgb (block_pixels g (corner r step) (corner c step) step))
        ∧ (∀ r c, 0 ≤ r < H → 0 ≤ c < W → (i + 1) * step ≤ r →
             pix s' r c = pix g r c).
Proof.
  intros HW HH Hstep Hi HiH Hg Hs Hdone Hrest.
  destruct (blocks_cover W step Hstep ltac:(lia)) as (Hnb & Hcover & Hin).
  unfold range3. rewrite for_fmap.
  destruct (for_range
    (λ j s', grid W H s'
       ∧ (∀ r c, 0 ≤ r < H → 0 ≤ c < W →
            r < i * step ∨ (r < i * step + step ∧ c < j * step) →
            pix s' r c = mean_rgb (block_pixels g (corner r step) (corner c step) step))
       ∧ (∀ r c, 0 ≤ r < H → 0 ≤ c < W →
            ¬ (r < i * step ∨ (r < i * step + step ∧ c < j * step)) →
            pix s' r c = pix g r c))
    (λ j, _avgRGB (0 + i * step) (0 + j * step) step)
    0 ((W - 0 + step - 1) / step) s) as (s' & Hfor & Hg' & Hin' & Hout'); [done| | |].
  - intros j s1 Hj (Hg1 & Hin1 & Hout1).
    assert (j * step < W) as HjW by (apply Hin; lia).
    destruct (avgRGB_spec W H s1 (0 + i * step) (0 + j * step) step Hg1)
      as (s2 & Havg & Hg2 & Hblock & Hother); [lia|lia|done|].
    assert (block_pixels s1 (0 + i * step) (0 + j * step) step
            = block_pixels g (0 + i * step) (0 + j * step) step) as Hsame.
    { apply (block_pixels_ext W H); [done|done|].
      intros r c Hr Hc. apply Hout1; lia. }
    exists s2. split; [done|]. split; [done|]. split.
    + intros r c Hr Hc Hcond.
      destruct (decide (0 + i * step ≤ r < 0 + i * step + step
                        ∧ 0 + j * step ≤ c < 0 + j * step + step)) as [Hb|Hb].
      * rewrite Hblock, Hsame by done.
        rewrite (corner_in_block step i r), (corner_in_block step j c) by lia.
        by rewrite !Z.add_0_l.
      * rewrite Hother by done. apply Hin1; [done|done|]. lia.
    + intros r c Hr Hc Hcond.
      rewrite Hother by lia. apply Hout1; [done|done|]. lia.
  - split; [done|]. split.
    + intros r c Hr Hc Hcond. apply Hdone; [done|done|]. lia.
    + intros r c Hr Hc Hcond. apply Hrest; [done|done|]. lia.
  - exists s'. split; [done|]. split; [done|]. split.
    + intros r c Hr Hc Hlt. apply Hin'; [done|done|]. lia.
    + intros r c Hr Hc Hge. apply Hout'; [done|done|]. lia.
Qed.

(** C4.  For a well-formed grid and a step above zero, [pixellate] keeps the
    shape of the grid and sets the pixel at (row, col) to the truncated
    per-channel mean of the pixels that the grid had, before the call, in the
    block with corner ((row//step)*step, (col//step)*step): rows
    [x, min(x+step, height)), columns [y, min(y+step, width)). *)
Theorem pixellate_block_average (g : Image.t) (step : Z) :
  Image.wf g → 0 < step →
  ∃ g', pixellate step g = (Ok tt, g')
        ∧ Image.width g' = Image.width g
        ∧ Image.height g' = Image.height g
        ∧ len (Image.data g') = len (Image.data g)
        ∧ ∀ row col, 0 ≤ row < Image.height g → 0 ≤ col < Image.width g →
            Image.getPixel g' row col
            = Ok (mean_rgb (block_pixels g (corner row step) (corner col step) step)).
Proof.
  intros Hwf Hstep. pose proof Hwf as (HW & HH & _).
  pose proof (wf_grid g Hwf) as Hg.
  set (W := Image.width g) in *. set (H := Image.height g) in *.
  destruct (blocks_cover H step Hstep ltac:(lia)) as (Hnb & Hcover & Hin).
  unfold pixellate.
  rewrite (bind_lift_ok _ _ g tt) by (destruct (Z.ltb_spec 0 step); [done|lia]).
  rewrite (bind_ok Current.getWidth _ g W g) by done.
  rewrite (bind_ok Current.getHeight _ g H g) by done.
  unfold range3 at 1. rewrite for_fmap.
  destruct (for_range
    (λ i s', grid W H s'
       ∧ (∀ r c, 0 ≤ r < H → 0 ≤ c < W → r < i * step →
            pix s' r c = mean_rgb (block_pixels g (corner r step) (corner c step) step))
       ∧ (∀ r c, 0 ≤ r < H → 0 ≤ c < W → i * step ≤ r → pix s' r c = pix g r c))
    (λ i, for_ (range3 0 W step) (λ y, _avgRGB (0 + i * step) y step))
    0 ((H - 0 + step - 1) / step) g) as (g' & Hfor & Hg' & Hmean & _); [done| | |].
  - intros i s1 Hi (Hg1 & Hdone & Hrest).
    apply (pixellate_block_row W H g s1 i step); try done; [lia|].
    apply Hin. lia.
  - split; [done|]. split; [intros; lia|done].
  - pose proof Hg' as (Hw' & Hh' & Hlen' & _). pose proof Hg as (_ & _ & Hlen & _).
    exists g'. split; [done|]. split; [done|]. split; [done|]. split; [lia|].
    intros row col Hr Hc.
    rewrite (getPixel_pix W H g' row col Hg' Hr Hc). f_equal.
    apply Hmean; [done|done|]. lia.
Qed.

Lemma pixellate_block_average_witness :
  ∃ g', pixellate 2 nine_pixels = (Ok tt, g')
        ∧ Image.width g' = Image.width nine_pixels
        ∧ Image.height g' = Image.height nine_pixels
        ∧ len (Image.data g') = len (Image.data nine_pixels)
        ∧ ∀ row col, 0 ≤ row < Image.height nine_pixels →
                     0 ≤ col < Image.width nine_pixels →
            Image.getPixel g' row col
            = Ok (mean_rgb (block_pixels nine_pixels (corner row 2) (corner col 2) 2)).
Proof.
  apply (pixellate_block_average nine_pixels 2).
  - unfold Image.wf. simpl. repeat split; try lia. repeat constructor.
  - lia.
Defined.

(** * More of the editor *)

(** ** Inversion *)

Lemma complement_valid (p : pixel) :
  Image.is_pixel p = true →
  Image.is_pixel (complement p) = true ∧ complement (complement p) = p.
Proof.
  destruct p as [[r g] b]. simpl.
  intros [[Hr Hg]%andb_prop Hb]%andb_prop.
  apply is_channel_inv in Hr, Hg, Hb.
  rewrite !is_channel_intro by lia. split; [done|].
  f_equal; [f_equal|]; lia.
Qed.

Lemma invert_spec (s : Image.t) :
  Forall (λ p, Image.is_pixel p = true) (Image.data s) →
  invert s = (Ok tt, Image.mk (Image.width s) (Image.height s)
                              (complement <$> Image.data s)).
Proof.
  intros Hpx. unfold invert.
  rewrite (bind_ok Current.getLength _ s (len (Image.data s)) s) by done.
  unfold range.
  destruct (for_range
    (λ k s', Image.width s' = Image.width s ∧ Image.height s' = Image.height s
             ∧ length (Image.data s') = length (Image.data s)
             ∧ (∀ i, Z.of_nat i < k →
                  Image.data s' !! i = complement <$> Image.data s !! i)
             ∧ (∀ i, k ≤ Z.of_nat i → Image.data s' !! i = Image.data s !! i))
    (λ pos, rgb ← Current.getFlatPixel pos;
            let '(r, g, b) := rgb in
            let red := 255 - r in
            let green := 255 - g in
            let blue := 255 - b in
            Current.setFlatPixel pos (red, green, blue))
    0 (len (Image.data s)) s) as (s' & Hfor & Hw & Hh & Hlen & Hdone & _).
  - unfold len. lia.
  - intros k s1 Hk (Hw & Hh & Hlen & Hdone & Hrest).
    destruct (lookup_lt_is_Some_2 (Image.data s) (Z.to_nat k)) as [p Hp];
      [unfold len in Hk; lia|].
    assert (Image.data s1 !! Z.to_nat k = Some p) as Hp1
      by (rewrite Hrest by lia; done).
    pose proof (Forall_lookup_1 _ _ _ _ Hpx Hp) as Hpv. simpl in Hpv.
    destruct (complement_valid p Hpv) as [Hcv _].
    assert (Image.in_flat s1 k = true) as Hin.
    { unfold Image.in_flat, Image.getLength, len. rewrite Hlen.
      unfold len in Hk. apply andb_true_intro. split; lia. }
    rewrite (bind_ok (Current.getFlatPixel k) _ s1 p s1).
    2:{ unfold Current.getFlatPixel, Image.getFlatPixel, Image.read.
        by rewrite Hin, Hp1. }
    destruct p as [[r g] b]. cbv zeta.
    change (255 - r, 255 - g, 255 - b) with (complement (r, g, b)) in *.
    unfold Current.setFlatPixel, Current.update, Image.setFlatPixel.
    rewrite Hin, Hcv. simpl.
    eexists. split; [done|]. unfold Image.write. simpl.
    rewrite length_insert. repeat split; try done.
    + intros i Hi. destruct (decide (i = Z.to_nat k)) as [->|Hne].
      * rewrite list_lookup_insert_eq by (apply lookup_lt_Some in Hp1; lia).
        by rewrite Hp.
      * rewrite list_lookup_insert_ne by done. apply Hdone. lia.
    + intros i Hi. rewrite list_lookup_insert_ne by lia. apply Hrest. lia.
  - repeat split; try done. intros i Hi. lia.
  - cbv zeta in Hfor. rewrite Hfor. f_equal.
    destruct s' as [w' h' d']. simpl in *. subst.
    f_equal. apply list_eq. intros i. rewrite list_lookup_fmap.
    destruct (decide (i < length (Image.data s))%nat) as [Hi|Hi].
    + apply Hdone. unfold len. lia.
    + rewrite !lookup_ge_None_2 by lia. done.
Qed.

(** [invert] replaces every pixel by its complement, [255 - channel] on each
    channel, and keeps the shape; a second [invert] gives back the image. *)
Theorem invert_involution (g : Image.t) :
  Forall (λ p, Image.is_pixel p = true) (Image.data g) →
  ∃ g', invert g = (Ok tt, g')
        ∧ Image.width g' = Image.width g ∧ Image.height g' = Image.height g
        ∧ Image.data g' = complement <$> Image.data g
        ∧ invert g' = (Ok tt, g).
Proof.
  intros Hpx. eexists. split; [by apply invert_spec|]. simpl.
  split; [done|]. split; [done|]. split; [done|].
  rewrite invert_spec; simpl.
  - f_equal. destruct g as [w h d]. simpl in *. f_equal.
    rewrite <- list_fmap_compose. rewrite <- (list_fmap_id d) at 2.
    apply Forall_fmap_ext. eapply Forall_impl; [exact Hpx|].
    intros p Hp. simpl in *. by destruct (complement_valid p Hp).
  - apply Forall_fmap. eapply Forall_impl; [exact Hpx|].
    intros p Hp. simpl in *. by destruct (complement_valid p Hp).
Qed.

Lemma invert_involution_witness :
  ∃ g', invert ten_pixels = (Ok tt, g')
        ∧ Image.width g' = Image.width ten_pixels
        ∧ Image.height g' = Image.height ten_pixels
        ∧ Image.data g' = complement <$> Image.data ten_pixels
        ∧ invert g' = (Ok tt, ten_pixels).
Proof.
  apply (invert_involution ten_pixels). repeat constructor.
Defined.

(** ** Rotations and reflections *)

Lemma rotateLeft_spec (W H : Z) (g : Image.t) :
  0 < W → 0 < H → grid W H g →
  ∃ g', rotateLeft g = (Ok tt, g') ∧ grid H W g'
        ∧ ∀ r c, 0 ≤ r < W → 0 ≤ c < H → pix g' r c = pix g c (W - r - 1).
Proof.
  intros HW HH Hg. pose proof Hg as (Hw & Hh & _).
  destruct (setWidth_height W H g HW HH Hg) as [Hset Hg1].
  unfold rotateLeft.
  rewrite (bind_ok Current.copy _ g g g) by done.
  rewrite (bind_ok Current.getHeight _ g H g)
    by (unfold Current.getHeight, Image.getHeight; by rewrite Hh).
  rewrite (bind_ok _ _ _ _ _ Hset).
  rewrite (bind_ok Current.getHeight _ _ W (Image.mk H W (Image.data g))) by done.
  unfold Image.getWidth at 1. rewrite Hw.
  apply (fill_loop (λ row col, Image.getPixel g col (W - row - 1))
                   (λ r c, pix g c (W - r - 1))); [done..|].
  intros r c Hr Hc. split.
  - apply (getPixel_pix W H); [done|lia|lia].
  - destruct (grid_lookup W H g c (W - r - 1) Hg); [lia|lia|done].
Qed.

(** [rotateLeft] swaps width and height and puts at (row, col) the pixel
    that the image had at (col, old_width-1-row); it undoes [rotateRight],
    and [rotateRight] undoes it. *)
Theorem rotateLeft_inverse_of_rotateRight (g : Image.t) :
  Image.wf g →
  (∃ g', rotateLeft g = (Ok tt, g')
         ∧ Image.width g' = Image.height g
         ∧ Image.height g' = Image.width g
         ∧ ∀ row col, 0 ≤ row < Image.height g' → 0 ≤ col < Image.width g' →
             Image.getPixel g' row col
             = Image.getPixel g col (Image.width g - 1 - row))
  ∧ (rotateRight;; rotateLeft) g = (Ok tt, g)
  ∧ (rotateLeft;; rotateRight) g = (Ok tt, g).
Proof.
  intros Hwf. pose proof Hwf as (HW & HH & _).
  pose proof (wf_grid g Hwf) as Hg.
  set (W := Image.width g) in *. set (H := Image.height g) in *.
  destruct (rotateLeft_spec W H g HW HH Hg) as (l1 & Hl1 & Hgl1 & Hpl1).
  destruct (rotateRight_spec H W l1 HH HW Hgl1) as (l2 & Hl2 & Hgl2 & Hpl2).
  destruct (rotateRight_spec W H g HW HH Hg) as (r1 & Hr1 & Hgr1 & Hpr1).
  destruct (rotateLeft_spec H W r1 HH HW Hgr1) as (r2 & Hr2 & Hgr2 & Hpr2).
  pose proof Hgl1 as (Hw1 & Hh1 & _).
  split; [|split].
  - exists l1. split; [done|]. split; [done|]. split; [done|].
    intros row col Hr Hc. rewrite Hh1 in Hr. rewrite Hw1 in Hc.
    rewrite (getPixel_pix H W l1 row col) by done.
    rewrite (getPixel_pix W H g col (W - 1 - row)) by (done || lia).
    f_equal. rewrite Hpl1 by done. f_equal. lia.
  - rewrite (bind_ok _ _ _ _ _ Hr1), Hr2. f_equal.
    apply (image_ext W H); [done..|]. intros r c Hr Hc.
    rewrite Hpr2, Hpr1 by lia. f_equal; lia.
  - rewrite (bind_ok _ _ _ _ _ Hl1), Hl2. f_equal.
    apply (image_ext W H); [done..|]. intros r c Hr Hc.
    rewrite Hpl2, Hpl1 by lia. f_equal; lia.
Qed.

Lemma rotateLeft_inverse_of_rotateRight_witness :
  (rotateRight;; rotateLeft) six_pixels = (Ok tt, six_pixels)
  ∧ (rotateLeft;; rotateRight) six_pixels = (Ok tt, six_pixels).
Proof.
  apply (rotateLeft_inverse_of_rotateRight six_pixels).
  unfold Image.wf. simpl. repeat split; try lia. repeat constructor.
Defined.

Lemma write_lookup_eq (s : Image.t) (i : Z) (p : pixel) :
  (Z.to_nat i < length (Image.data s))%nat →
  Image.data (Image.write s i p) !! Z.to_nat i = Some p.
Proof. intros Hi. unfold Image.write. simpl. by apply list_lookup_insert_eq. Qed.

Lemma swapPixels_spec (W H : Z) (s : Image.t) (r1 c1 r2 c2 : Z) :
  grid W H s → 0 ≤ r1 < H → 0 ≤ c1 < W → 0 ≤ r2 < H → 0 ≤ c2 < W →
  ¬ (r1 = r2 ∧ c1 = c2) →
  ∃ s', swapPixels r1 c1 r2 c2 s = (Ok tt, s') ∧ grid W H s'
        ∧ pix s' r1 c1 = pix s r2 c2
        ∧ pix s' r2 c2 = pix s r1 c1
        ∧ ∀ r c, 0 ≤ r < H → 0 ≤ c < W →
                 ¬ (r = r1 ∧ c = c1) → ¬ (r = r2 ∧ c = c2) →
                 pix s' r c = pix s r c.
Proof.
  intros Hg Hr1 Hc1 Hr2 Hc2 Hne. pose proof Hg as (Hw & Hh & Hlen & Hpx).
  destruct (grid_lookup W H s r1 c1 Hg Hr1 Hc1) as [Hl1 Hv1].
  destruct (grid_lookup W H s r2 c2 Hg Hr2 Hc2) as [Hl2 Hv2].
  pose proof (flat_lt W H r1 c1 Hr1 Hc1) as Hlt1.
  pose proof (flat_lt W H r2 c2 Hr2 Hc2) as Hlt2.
  assert (r1 * W + c1 ≠ r2 * W + c2) as Hidx.
  { intros Heq. apply Hne. by apply (flat_inj W). }
  unfold swapPixels, Current.update, swapPixels_image.
  rewrite !in_grid_true by lia. simpl andb. cbv iota.
  unfold Image.read. rewrite Hw, Hl1, Hl2.
  set (p1 := pix s r1 c1) in *. set (p2 := pix s r2 c2) in *.
  change (Ok p1 ≫= ?k) with (k p1). cbv beta.
  change (Ok p2 ≫= ?k) with (k p2). cbv beta.
  eexists. split; [done|]. unfold Image.write, grid, len in *. unfold pix. simpl.
  rewrite !length_insert, Hw. repeat split; try done.
  - by apply Forall_insert; [apply Forall_insert|].
  - rewrite list_lookup_insert_ne by lia.
    rewrite list_lookup_insert_eq by lia. done.
  - rewrite list_lookup_insert_eq by (rewrite length_insert; lia). done.
  - intros r c Hr Hc Hn1 Hn2.
    pose proof (flat_lt W H r c Hr Hc).
    rewrite !list_lookup_insert_ne; [done| |].
    + intros Heq. apply Hn1. destruct (flat_inj W r1 c1 r c); [lia|lia|lia|done].
    + intros Heq. apply Hn2. destruct (flat_inj W r2 c2 r c); [lia|lia|lia|done].
Qed.

Lemma reflectHori_spec (W H : Z) (g : Image.t) :
  0 < W → 0 < H → grid W H g →
  ∃ g', reflectHori g = (Ok tt, g') ∧ grid W H g'
        ∧ ∀ r c, 0 ≤ r < H → 0 ≤ c < W → pix g' r c = pix g r (W - 1 - c).
Proof.
  intros HW HH Hg. pose proof Hg as (Hw & Hh & _).
  assert (0 ≤ W / 2) as Hhalf by (apply Z.div_pos; lia).
  assert (2 * (W / 2) ≤ W < 2 * (W / 2) + 2) as Hdiv
    by (Z.div_mod_to_equations; lia).
  unfold reflectHori.
  rewrite (bind_ok Current.getWidth _ g W g)
    by (unfold Current.getWidth, Image.getWidth; by rewrite Hw).
  unfold range.
  destruct (for_range
    (λ h s, grid W H s
       ∧ (∀ r c, 0 ≤ r < H → 0 ≤ c < W → c < h ∨ W - 1 - h < c →
                 pix s r c = pix g r (W - 1 - c))
       ∧ (∀ r c, 0 ≤ r < H → 0 ≤ c < W → h ≤ c ≤ W - 1 - h →
                 pix s r c = pix g r c))
    (λ h, height ← Current.getHeight;
          for_ (seqZ 0 height) (λ row,
            w' ← Current.getWidth;
            let k := w' - 1 - h in swapPixels row h row k))
    0 (W / 2) g) as (g' & Hfor & Hg' & Hmir & Hmid); [done| | |].
  - intros h s1 Hh1 (Hg1 & Hmir & Hmid). pose proof Hg1 as (Hw1 & Hh1' & _).
    rewrite (bind_ok Current.getHeight _ s1 H s1)
      by (unfold Current.getHeight, Image.getHeight; by rewrite Hh1').
    destruct (for_range
      (λ row s, grid W H s
         ∧ (∀ r c, 0 ≤ r < H → 0 ≤ c < W →
              c < h ∨ W - 1 - h < c ∨ ((c = h ∨ c = W - 1 - h) ∧ r < row) →
              pix s r c = pix g r (W - 1 - c))
         ∧ (∀ r c, 0 ≤ r < H → 0 ≤ c < W →
              ¬ (c < h ∨ W - 1 - h < c ∨ ((c = h ∨ c = W - 1 - h) ∧ r < row)) →
              pix s r c = pix g r c))
      (λ row, w' ← Current.getWidth;
              let k := w' - 1 - h in swapPixels row h row k)
      0 H s1) as (s2 & Hfor2 & Hg2 & Hmir2 & Hsame2); [lia| | |].
    + intros row s2 Hrow (Hg2 & Hmir2 & Hsame2). pose proof Hg2 as (Hw2 & _).
      rewrite (bind_ok Current.getWidth _ s2 W s2)
        by (unfold Current.getWidth, Image.getWidth; by rewrite Hw2).
      cbv zeta.
      destruct (swapPixels_spec W H s2 row h row (W - 1 - h) Hg2)
        as (s3 & Hswap & Hg3 & Ha & Hb & Hother); [lia..|].
      exists s3. split; [done|]. split; [done|]. split.
      * intros r c Hr Hc Hcond.
        destruct (decide (r = row ∧ c = h)) as [[-> ->]|Hn1].
        { rewrite Ha. apply Hsame2; [lia|lia|]. lia. }
        destruct (decide (r = row ∧ c = W - 1 - h)) as [[-> ->]|Hn2].
        { rewrite Hb. rewrite Hsame2 by lia. f_equal. lia. }
        rewrite Hother by done. apply Hmir2; [done|done|]. lia.
      * intros r c Hr Hc Hcond. rewrite Hother by lia.
        apply Hsame2; [done|done|]. lia.
    + split; [done|]. split.
      * intros r c Hr Hc Hcond. apply Hmir; [done|done|]. lia.
      * intros r c Hr Hc Hcond. apply Hmid; [done|done|]. lia.
    + exists s2. split; [done|]. split; [done|]. split.
      * intros r c Hr Hc Hcond. apply Hmir2; [done|done|]. lia.
      * intros r c Hr Hc Hcond. apply Hsame2; [done|done|]. lia.
  - split; [done|]. split; [intros; lia|done].
  - exists g'. split; [done|]. split; [done|].
    intros r c Hr Hc.
    destruct (decide (c < 0 + W / 2 ∨ W - 1 - (0 + W / 2) < c)) as [Hout|Hin].
    + by apply Hmir.
    + rewrite Hmid by lia. f_equal. lia.
Qed.

Lemma reflectVert_spec (W H : Z) (g : Image.t) :
  0 < W → 0 < H → grid W H g →
  ∃ g', reflectVert g = (Ok tt, g') ∧ grid W H g'
        ∧ ∀ r c, 0 ≤ r < H → 0 ≤ c < W → pix g' r c = pix g (H - 1 - r) c.
Proof.
  intros HW HH Hg. pose proof Hg as (Hw & Hh & _).
  assert (0 ≤ H / 2) as Hhalf by (apply Z.div_pos; lia).
  assert (2 * (H / 2) ≤ H < 2 * (H / 2) + 2) as Hdiv
    by (Z.div_mod_to_equations; lia).
  unfold reflectVert.
  rewrite (bind_ok Current.getHeight _ g H g)
    by (unfold Current.getHeight, Image.getHeight; by rewrite Hh).
  unfold range.
  destruct (for_range
    (λ h s, grid W H s
       ∧ (∀ r c, 0 ≤ r < H → 0 ≤ c < W → r < h ∨ H - 1 - h < r →
                 pix s r c = pix g (H - 1 - r) c)
       ∧ (∀ r c, 0 ≤ r < H → 0 ≤ c < W → h ≤ r ≤ H - 1 - h →
                 pix s r c = pix g r c))
    (λ h, w ← Current.getWidth;
          for_ (seqZ 0 w) (λ col,
            height' ← Current.getHeight;
            let k := height' - 1 - h in swapPixels h col k col))
    0 (H / 2) g) as (g' & Hfor & Hg' & Hmir & Hmid); [done| | |].
  - intros h s1 Hh1 (Hg1 & Hmir & Hmid). pose proof Hg1 as (Hw1 & Hh1' & _).
    rewrite (bind_ok Current.getWidth _ s1 W s1)
      by (unfold Current.getWidth, Image.getWidth; by rewrite Hw1).
    destruct (for_range
      (λ col s, grid W H s
         ∧ (∀ r c, 0 ≤ r < H → 0 ≤ c < W →
              r < h ∨ H - 1 - h < r ∨ ((r = h ∨ r = H - 1 - h) ∧ c < col) →
              pix s r c = pix g (H - 1 - r) c)
         ∧ (∀ r c, 0 ≤ r < H → 0 ≤ c < W →
              ¬ (r < h ∨ H - 1 - h < r ∨ ((r = h ∨ r = H - 1 - h) ∧ c < col)) →
              pix s r c = pix g r c))
      (λ col, height' ← Current.getHeight;
              let k := height' - 1 - h in swapPixels h col k col)
      0 W s1) as (s2 & Hfor2 & Hg2 & Hmir2 & Hsame2); [lia| | |].
    + intros col s2 Hcol (Hg2 & Hmir2 & Hsame2). pose proof Hg2 as (_ & Hh2 & _).
      rewrite (bind_ok Current.getHeight _ s2 H s2)
        by (unfold Current.getHeight, Image.getHeight; by rewrite Hh2).
      cbv zeta.
      destruct (swapPixels_spec W H s2 h col (H - 1 - h) col Hg2)
        as (s3 & Hswap & Hg3 & Ha & Hb & Hother); [lia..|].
      exists s3. split; [done|]. split; [done|]. split.
      * intros r c Hr Hc Hcond.
        destruct (decide (r = h ∧ c = col)) as [[-> ->]|Hn1].
        { rewrite Ha. apply Hsame2; [lia|lia|]. lia. }
        destruct (decide (r = H - 1 - h ∧ c = col)) as [[-> ->]|Hn2].
        { rewrite Hb. rewrite Hsame2 by lia. f_equal. lia. }
        rewrite Hother by done. apply Hmir2; [done|done|]. lia.
      * intros r c Hr Hc Hcond. rewrite Hother by lia.
        apply Hsame2; [done|done|]. lia.
    + split; [done|]. split.
      * intros r c Hr Hc Hcond. apply Hmir; [done|done|]. lia.
      * intros r c Hr Hc Hcond. apply Hmid; [done|done|]. lia.
    + exists s2. split; [done|]. split; [done|]. split.
      * intros r c Hr Hc Hcond. apply Hmir2; [done|done|]. lia.
      * intros r c Hr Hc Hcond. apply Hsame2; [done|done|]. lia.
  - split; [done|]. split; [intros; lia|done].
  - exists g'. split; [done|]. split; [done|].
    intros r c Hr Hc.
    destruct (decide (r < 0 + H / 2 ∨ H - 1 - (0 + H / 2) < r)) as [Hout|Hin].
    + by apply Hmir.
    + rewrite Hmid by lia. f_equal. lia.
Qed.

(** [reflectHori] keeps the shape and puts at (row, col) the pixel that the
    image had at (row, width-1-col), the middle column of an odd width
    staying in place; a second [reflectHori] gives back the image. *)
Theorem reflectHori_mirror (g : Image.t) :
  Image.wf g →
  ∃ g', reflectHori g = (Ok tt, g')
        ∧ Image.width g' = Image.width g ∧ Image.height g' = Image.height g
        ∧ (∀ row col, 0 ≤ row < Image.height g → 0 ≤ col < Image.width g →
             Image.getPixel g' row col
             = Image.getPixel g row (Image.width g - 1 - col))
        ∧ reflectHori g' = (Ok tt, g).
Proof.
  intros Hwf. pose proof Hwf as (HW & HH & _).
  pose proof (wf_grid g Hwf) as Hg.
  set (W := Image.width g) in *. set (H := Image.height g) in *.
  destruct (reflectHori_spec W H g HW HH Hg) as (g1 & Hr1 & Hg1 & Hp1).
  destruct (reflectHori_spec W H g1 HW HH Hg1) as (g2 & Hr2 & Hg2 & Hp2).
  pose proof Hg1 as (Hw1 & Hh1 & _).
  exists g1. split; [done|]. split; [done|]. split; [done|]. split.
  - intros row col Hr Hc.
    rewrite (getPixel_pix W H g1 row col) by done.
    rewrite (getPixel_pix W H g row (W - 1 - col)) by (done || lia).
    f_equal. by apply Hp1.
  - rewrite Hr2. f_equal. apply (image_ext W H); [done..|].
    intros r c Hr Hc. rewrite Hp2, Hp1 by lia. f_equal. lia.
Qed.

Lemma reflectHori_mirror_witness :
  ∃ g', reflectHori six_pixels = (Ok tt, g')
        ∧ Image.width g' = Image.width six_pixels
        ∧ Image.height g' = Image.height six_pixels
        ∧ (∀ row col, 0 ≤ row < Image.height six_pixels →
                      0 ≤ col < Image.width six_pixels →
             Image.getPixel g' row col
             = Image.getPixel six_pixels row (Image.width six_pixels - 1 - col))
        ∧ reflectHori g' = (Ok tt, six_pixels).
Proof.
  apply (reflectHori_mirror six_pixels).
  unfold Image.wf. simpl. repeat split; try lia. repeat constructor.
Defined.

(** [reflectVert] keeps the shape and puts at (row, col) the pixel that the
    image had at (height-1-row, col); a second [reflectVert] gives back the
    image. *)
Theorem reflectVert_mirror (g : Image.t) :
  Image.wf g →
  ∃ g', reflectVert g = (Ok tt, g')
        ∧ Image.width g' = Image.width g ∧ Image.height g' = Image.height g
        ∧ (∀ row col, 0 ≤ row < Image.height g → 0 ≤ col < Image.width g →
             Image.getPixel g' row col
             = Image.getPixel g (Image.height g - 1 - row) col)
        ∧ reflectVert g' = (Ok tt, g).
Proof.
  intros Hwf. pose proof Hwf as (HW & HH & _).
  pose proof (wf_grid g Hwf) as Hg.
  set (W := Image.width g) in *. set (H := Image.height g) in *.
  destruct (reflectVert_spec W H g HW HH Hg) as (g1 & Hr1 & Hg1 & Hp1).
  destruct (reflectVert_spec W H g1 HW HH Hg1) as (g2 & Hr2 & Hg2 & Hp2).
  pose proof Hg1 as (Hw1 & Hh1 & _).
  exists g1. split; [done|]. split; [done|]. split; [done|]. split.
  - intros row col Hr Hc.
    rewrite (getPixel_pix W H g1 row col) by done.
    rewrite (getPixel_pix W H g (H - 1 - row) col) by (done || lia).
    f_equal. by apply Hp1.
  - rewrite Hr2. f_equal. apply (image_ext W H); [done..|].
    intros r c Hr Hc. rewrite Hp2, Hp1 by lia. f_equal. lia.
Qed.

Lemma reflectVert_mirror_witness :
  ∃ g', reflectVert six_pixels = (Ok tt, g')
        ∧ Image.width g' = Image.width six_pixels
        ∧ Image.height g' = Image.height six_pixels
        ∧ (∀ row col, 0 ≤ row < Image.height six_pixels →
                      0 ≤ col < Image.width six_pixels →
             Image.getPixel g' row col
             = Image.getPixel six_pixels (Image.height six_pixels - 1 - row) col)
        ∧ reflectVert g' = (Ok tt, six_pixels).
Proof.
  apply (reflectVert_mirror six_pixels).
  unfold Image.wf. simpl. repeat split; try lia. repeat constructor.
Defined.

(** What the docstring of [rotateRight] says: the rotation is a transpose
    followed by a reflection, here [reflectHori]. *)
Theorem rotateRight_is_transpose_reflectHori (g : Image.t) :
  Image.wf g → (transpose;; reflectHori) g = rotateRight g.
Proof.
  intros Hwf. pose proof Hwf as (HW & HH & _).
  pose proof (wf_grid g Hwf) as Hg.
  set (W := Image.width g) in *. set (H := Image.height g) in *.
  destruct (transpose_spec W H g HW HH Hg) as (t1 & Ht1 & Hgt1 & Hpt1).
  destruct (reflectHori_spec H W t1 HH HW Hgt1) as (t2 & Ht2 & Hgt2 & Hpt2).
  destruct (rotateRight_spec W H g HW HH Hg) as (r1 & Hr1 & Hgr1 & Hpr1).
  rewrite (bind_ok _ _ _ _ _ Ht1), Ht2, Hr1. f_equal.
  apply (image_ext H W); [done..|]. intros r c Hr Hc.
  rewrite Hpt2, Hpt1, Hpr1 by lia. f_equal. lia.
Qed.

Lemma rotateRight_is_transpose_reflectHori_witness :
  (transpose;; reflectHori) six_pixels = rotateRight six_pixels.
Proof.
  apply (rotateRight_is_transpose_reflectHori six_pixels).
  unfold Image.wf. simpl. repeat split; try lia. repeat constructor.
Defined.

(** [rotateLeft] is a transpose followed by [reflectVert]. *)
Theorem rotateLeft_is_transpose_reflectVert (g : Image.t) :
  Image.wf g → (transpose;; reflectVert) g = rotateLeft g.
Proof.
  intros Hwf. pose proof Hwf as (HW & HH & _).
  pose proof (wf_grid g Hwf) as Hg.
  set (W := Image.width g) in *. set (H := Image.height g) in *.
  destruct (transpose_spec W H g HW HH Hg) as (t1 & Ht1 & Hgt1 & Hpt1).
  destruct (reflectVert_spec H W t1 HH HW Hgt1) as (t2 & Ht2 & Hgt2 & Hpt2).
  destruct (rotateLeft_spec W H g HW HH Hg) as (r1 & Hr1 & Hgr1 & Hpr1).
  rewrite (bind_ok _ _ _ _ _ Ht1), Ht2, Hr1. f_equal.
  apply (image_ext H W); [done..|]. intros r c Hr Hc.
  rewrite Hpt2, Hpt1, Hpr1 by lia. f_equal. lia.
Qed.

Lemma rotateLeft_is_transpose_reflectVert_witness :
  (transpose;; reflectVert) six_pixels = rotateLeft six_pixels.
Proof.
  apply (rotateLeft_is_transpose_reflectVert six_pixels).
  unfold Image.wf. simpl. repeat split; try lia. repeat constructor.
Defined.

(** Two quarter turns are a half turn: [rotateRight] twice is both
    reflections, one after the other. *)
Theorem rotateRight_twice_is_both_reflections (g : Image.t) :
  Image.wf g → (rotateRight;; rotateRight) g = (reflectHori;; reflectVert) g.
Proof.
  intros Hwf. pose proof Hwf as (HW & HH & _).
  pose proof (wf_grid g Hwf) as Hg.
  set (W := Image.width g) in *. set (H := Image.height g) in *.
  destruct (rotateRight_spec W H g HW HH Hg) as (r1 & Hr1 & Hgr1 & Hpr1).
  destruct (rotateRight_spec H W r1 HH HW Hgr1) as (r2 & Hr2 & Hgr2 & Hpr2).
  destruct (reflectHori_spec W H g HW HH Hg) as (m1 & Hm1 & Hgm1 & Hpm1).
  destruct (reflectVert_spec W H m1 HW HH Hgm1) as (m2 & Hm2 & Hgm2 & Hpm2).
  rewrite (bind_ok _ _ _ _ _ Hr1), Hr2, (bind_ok _ _ _ _ _ Hm1), Hm2. f_equal.
  apply (image_ext W H); [done..|]. intros r c Hr Hc.
  rewrite Hpr2, Hpr1, Hpm2, Hpm1 by lia. f_equal; lia.
Qed.

Lemma rotateRight_twice_is_both_reflections_witness :
  (rotateRight;; rotateRight) six_pixels = (reflectHori;; reflectVert) six_pixels.
Proof.
  apply (rotateRight_twice_is_both_reflections six_pixels).
  unfold Image.wf. simpl. repeat split; try lia. repeat constructor.
Defined.

(** ** Bars *)

Lemma drawHBar_spec (W H : Z) (s : Image.t) (row : Z) (p : pixel) :
  0 < W → grid W H s → 0 ≤ row → row + 2 < H → Image.is_pixel p = true →
  ∃ s', _drawHBar row p s = (Ok tt, s') ∧ grid W H s'
        ∧ (∀ r c, 0 ≤ r < H → 0 ≤ c < W → row ≤ r ≤ row + 2 → pix s' r c = p)
        ∧ (∀ r c, 0 ≤ r < H → 0 ≤ c < W → ¬ (row ≤ r ≤ row + 2) →
                  pix s' r c = pix s r c).
Proof.
  intros HW Hg Hrow Hrow2 Hp. pose proof Hg as (Hw & Hh & _).
  unfold _drawHBar.
  rewrite (bind_ok Current.getWidth _ s W s)
    by (unfold Current.getWidth, Image.getWidth; by rewrite Hw).
  unfold range.
  destruct (for_range
    (λ col s', grid W H s'
       ∧ (∀ r c, 0 ≤ r < H → 0 ≤ c < W → row ≤ r ≤ row + 2 ∧ c < col →
                 pix s' r c = p)
       ∧ (∀ r c, 0 ≤ r < H → 0 ≤ c < W → ¬ (row ≤ r ≤ row + 2 ∧ c < col) →
                 pix s' r c = pix s r c))
    (λ col, Current.setPixel row col p;;
            Current.setPixel (row + 1) col p;;
            Current.setPixel (row + 2) col p)
    0 W s) as (s' & Hfor & Hg' & Hin & Hout); [lia| | |].
  - intros col s1 Hcol (Hg1 & Hin & Hout).
    destruct (current_setPixel W H s1 row col p Hg1)
      as (s2 & Hs2 & Hg2 & Hn2 & Ho2); [lia|lia|done|].
    destruct (current_setPixel W H s2 (row + 1) col p Hg2)
      as (s3 & Hs3 & Hg3 & Hn3 & Ho3); [lia|lia|done|].
    destruct (current_setPixel W H s3 (row + 2) col p Hg3)
      as (s4 & Hs4 & Hg4 & Hn4 & Ho4); [lia|lia|done|].
    exists s4. split.
    { by rewrite (bind_ok _ _ _ _ _ Hs2), (bind_ok _ _ _ _ _ Hs3). }
    split; [done|]. split.
    + intros r c Hr Hc [Hrr Hcc].
      destruct (decide (r = row + 2 ∧ c = col)) as [[-> ->]|N4]; [done|].
      rewrite Ho4 by done.
      destruct (decide (r = row + 1 ∧ c = col)) as [[-> ->]|N3]; [done|].
      rewrite Ho3 by done.
      destruct (decide (r = row ∧ c = col)) as [[-> ->]|N2]; [done|].
      rewrite Ho2 by done. apply Hin; [done|done|]. lia.
    + intros r c Hr Hc Hn.
      rewrite Ho4, Ho3, Ho2 by lia. apply Hout; [done|done|]. lia.
  - split; [done|]. split; [intros; lia|done].
  - exists s'. split; [done|]. split; [done|]. split.
    + intros r c Hr Hc Hrr. apply Hin; [done|done|]. lia.
    + intros r c Hr Hc Hn. apply Hout; [done|done|]. lia.
Qed.

Lemma drawVBar_spec (W H : Z) (s : Image.t) (col : Z) (p : pixel) :
  0 < H → grid W H s → 0 ≤ col → col + 3 < W → Image.is_pixel p = true →
  ∃ s', _drawVBar col p s = (Ok tt, s') ∧ grid W H s'
        ∧ (∀ r c, 0 ≤ r < H → 0 ≤ c < W → col ≤ c ≤ col + 3 → pix s' r c = p)
        ∧ (∀ r c, 0 ≤ r < H → 0 ≤ c < W → ¬ (col ≤ c ≤ col + 3) →
                  pix s' r c = pix s r c).
Proof.
  intros HH Hg Hcol Hcol3 Hp. pose proof Hg as (Hw & Hh & _).
  unfold _drawVBar.
  rewrite (bind_ok Current.getHeight _ s H s)
    by (unfold Current.getHeight, Image.getHeight; by rewrite Hh).
  unfold range.
  destruct (for_range
    (λ row s', grid W H s'
       ∧ (∀ r c, 0 ≤ r < H → 0 ≤ c < W → col ≤ c ≤ col + 3 ∧ r < row →
                 pix s' r c = p)
       ∧ (∀ r c, 0 ≤ r < H → 0 ≤ c < W → ¬ (col ≤ c ≤ col + 3 ∧ r < row) →
                 pix s' r c = pix s r c))
    (λ row, Current.setPixel row col p;;
            Current.setPixel row (col + 1) p;;
            Current.setPixel row (col + 2) p;;
            Current.setPixel row (col + 3) p)
    0 H s) as (s' & Hfor & Hg' & Hin & Hout); [lia| | |].
  - intros row s1 Hrow (Hg1 & Hin & Hout).
    destruct (current_setPixel W H s1 row col p Hg1)
      as (s2 & Hs2 & Hg2 & Hn2 & Ho2); [lia|lia|done|].
    destruct (current_setPixel W H s2 row (col + 1) p Hg2)
      as (s3 & Hs3 & Hg3 & Hn3 & Ho3); [lia|lia|done|].
    destruct (current_setPixel W H s3 row (col + 2) p Hg3)
      as (s4 & Hs4 & Hg4 & Hn4 & Ho4); [lia|lia|done|].
    destruct (current_setPixel W H s4 row (col + 3) p Hg4)
      as (s5 & Hs5 & Hg5 & Hn5 & Ho5); [lia|lia|done|].
    exists s5. split.
    { by rewrite (bind_ok _ _ _ _ _ Hs2), (bind_ok _ _ _ _ _ Hs3),
                 (bind_ok _ _ _ _ _ Hs4). }
    split; [done|]. split.
    + intros r c Hr Hc [Hcc Hrr].
      destruct (decide (r = row ∧ c = col + 3)) as [[-> ->]|N5]; [done|].
      rewrite Ho5 by done.
      destruct (decide (r = row ∧ c = col + 2)) as [[-> ->]|N4]; [done|].
      rewrite Ho4 by done.
      destruct (decide (r = row ∧ c = col + 1)) as [[-> ->]|N3]; [done|].
      rewrite Ho3 by done.
      destruct (decide (r = row ∧ c = col)) as [[-> ->]|N2]; [done|].
      rewrite Ho2 by done. apply Hin; [done|done|]. lia.
    + intros r c Hr Hc Hn.
      rewrite Ho5, Ho4, Ho3, Ho2 by lia. apply Hout; [done|done|]. lia.
  - split; [done|]. split; [intros; lia|done].
  - exists s'. split; [done|]. split; [done|]. split.
    + intros r c Hr Hc Hcc. apply Hin; [done|done|]. lia.
    + intros r c Hr Hc Hn. apply Hout; [done|done|]. lia.
Qed.

(** Under its documented precondition, [0 <= row] and [row+2 < height],
    [_drawHBar] colours exactly the three rows [row], [row+1], [row+2] over
    the full width, and keeps every other pixel and the shape. *)
Theorem drawHBar_three_rows (g : Image.t) (row : Z) (p : pixel) :
  Image.wf g → 0 ≤ row → row + 2 < Image.height g → Image.is_pixel p = true →
  ∃ g', _drawHBar row p g = (Ok tt, g')
        ∧ Image.width g' = Image.width g ∧ Image.height g' = Image.height g
        ∧ ∀ r c, 0 ≤ r < Image.height g → 0 ≤ c < Image.width g →
            Image.getPixel g' r c
            = if decide (row ≤ r ≤ row + 2) then Ok p else Image.getPixel g r c.
Proof.
  intros Hwf Hrow Hrow2 Hp. pose proof Hwf as (HW & HH & _).
  pose proof (wf_grid g Hwf) as Hg.
  destruct (drawHBar_spec _ _ g row p HW Hg Hrow Hrow2 Hp)
    as (g' & Hrun & Hg' & Hin & Hout).
  pose proof Hg' as (Hw' & Hh' & _).
  exists g'. split; [done|]. split; [done|]. split; [done|].
  intros r c Hr Hc. rewrite (getPixel_pix _ _ g' r c Hg' Hr Hc).
  destruct (decide (row ≤ r ≤ row + 2)) as [Hrr|Hrr].
  - f_equal. by apply Hin.
  - rewrite (getPixel_pix _ _ g r c Hg Hr Hc). f_equal. by apply Hout.
Qed.

Lemma drawHBar_three_rows_witness :
  ∃ g', _drawHBar 0 (255, 0, 0) nine_pixels = (Ok tt, g')
        ∧ Image.width g' = Image.width nine_pixels
        ∧ Image.height g' = Image.height nine_pixels
        ∧ ∀ r c, 0 ≤ r < Image.height nine_pixels →
                 0 ≤ c < Image.width nine_pixels →
            Image.getPixel g' r c
            = if decide (0 ≤ r ≤ 0 + 2) then Ok (255, 0, 0)
              else Image.getPixel nine_pixels r c.
Proof.
  apply (drawHBar_three_rows nine_pixels 0 (255, 0, 0)).
  - unfold Image.wf. simpl. repeat split; try lia. repeat constructor.
  - lia.
  - simpl. lia.
  - reflexivity.
Defined.

(** Under its documented precondition, [0 <= col] and [col+3 < width],
    [_drawVBar] colours exactly the four columns [col] to [col+3] over the
    full height, and keeps every other pixel and the shape. *)
Theorem drawVBar_four_columns (g : Image.t) (col : Z) (p : pixel) :
  Image.wf g → 0 ≤ col → col + 3 < Image.width g → Image.is_pixel p = true →
  ∃ g', _drawVBar col p g = (Ok tt, g')
        ∧ Image.width g' = Image.width g ∧ Image.height g' = Image.height g
        ∧ ∀ r c, 0 ≤ r < Image.height g → 0 ≤ c < Image.width g →
            Image.getPixel g' r c
            = if decide (col ≤ c ≤ col + 3) then Ok p else Image.getPixel g r c.
Proof.
  intros Hwf Hcol Hcol3 Hp. pose proof Hwf as (HW & HH & _).
  pose proof (wf_grid g Hwf) as Hg.
  destruct (drawVBar_spec _ _ g col p HH Hg Hcol Hcol3 Hp)
    as (g' & Hrun & Hg' & Hin & Hout).
  pose proof Hg' as (Hw' & Hh' & _).
  exists g'. split; [done|]. split; [done|]. split; [done|].
  intros r c Hr Hc. rewrite (getPixel_pix _ _ g' r c Hg' Hr Hc).
  destruct (decide (col ≤ c ≤ col + 3)) as [Hcc|Hcc].
  - f_equal. by apply Hin.
  - rewrite (getPixel_pix _ _ g r c Hg Hr Hc). f_equal. by apply Hout.
Qed.

Lemma drawVBar_four_columns_witness :
  ∃ g', _drawVBar 1 (255, 0, 0) ten_pixels = (Ok tt, g')
        ∧ Image.width g' = Image.width ten_pixels
        ∧ Image.height g' = Image.height ten_pixels
        ∧ ∀ r c, 0 ≤ r < Image.height ten_pixels →
                 0 ≤ c < Image.width ten_pixels →
            Image.getPixel g' r c
            = if decide (1 ≤ c ≤ 1 + 3) then Ok (255, 0, 0)
              else Image.getPixel ten_pixels r c.
Proof.
  apply (drawVBar_four_columns ten_pixels 1 (255, 0, 0)).
  - unfold Image.wf. simpl. repeat split; try lia. repeat constructor.
  - lia.
  - vm_compute. reflexivity.
  - reflexivity.
Defined.

(** A grid fewer than three rows high has no room for the top bar: [jail]
    raises [AssertionError] in its first [_drawHBar], after the top-left
    pixel has been coloured. *)
Theorem jail_too_short (g : Image.t) :
  Image.wf g → Image.height g < 3 →
  ∃ g', jail g = (Raise AssertionError, g')
        ∧ Image.getPixel g' 0 0 = Ok (255, 0, 0).
Proof.
  intros Hwf Hshort. pose proof Hwf as (HW & HH & _).
  pose proof (wf_grid g Hwf) as Hg.
  set (W := Image.width g) in *. set (H := Image.height g) in *.
  unfold jail. cbv zeta.
  rewrite (bind_ok Current.getWidth _ g W g) by done.
  rewrite (bind_ok Current.getHeight _ g H g) by done.
  destruct (current_setPixel W H g 0 0 (255, 0, 0) Hg)
    as (g1 & Hs1 & Hg1 & Hn1 & Ho1); [lia|lia|done|].
  pose proof Hg1 as (Hw1 & Hh1 & _).
  assert (∃ g', _drawHBar 0 (255, 0, 0) g = (Raise AssertionError, g')
                ∧ grid W H g' ∧ pix g' 0 0 = (255, 0, 0)) as (g' & Hbar & Hg' & Hp').
  { unfold _drawHBar.
    rewrite (bind_ok Current.getWidth _ g W g) by done.
    unfold range. rewrite seqZ_cons by lia. simpl for_. unfold bind at 1.
    rewrite (bind_ok _ _ _ _ _ Hs1).
    destruct (decide (H = 1)) as [H1|H1].
    - exists g1. split; [|done].
      rewrite (bind_raise _ _ g1 AssertionError g1); [done|].
      apply setPixel_outside. lia.
    - destruct (current_setPixel W H g1 (0 + 1) 0 (255, 0, 0) Hg1)
        as (g2 & Hs2 & Hg2 & Hn2 & Ho2); [lia|lia|done|].
      pose proof Hg2 as (Hw2 & Hh2 & _).
      exists g2. split; [|split; [done|]].
      + rewrite (bind_ok _ _ _ _ _ Hs2).
        rewrite (setPixel_outside g2 (0 + 2) 0) by lia. done.
      + rewrite Ho2 by lia. done. }
  exists g'. split.
  - by rewrite (bind_raise _ _ _ _ _ Hbar).
  - rewrite (getPixel_pix W H g' 0 0 Hg') by lia. by rewrite Hp'.
Qed.

Lemma jail_too_short_witness :
  ∃ g', jail six_pixels = (Raise AssertionError, g')
        ∧ Image.getPixel g' 0 0 = Ok (255, 0, 0).
Proof.
  apply (jail_too_short six_pixels).
  - unfold Image.wf. simpl. repeat split; try lia. repeat constructor.
  - simpl. lia.
Defined.

(** ** More on pixellation *)

Lemma pixellate_spec (W H : Z) (g : Image.t) (step : Z) :
  0 < W → 0 < H → grid W H g → 0 < step →
  ∃ g', pixellate step g = (Ok tt, g') ∧ grid W H g'
        ∧ ∀ r c, 0 ≤ r < H → 0 ≤ c < W →
            pix g' r c
            = mean_rgb (block_pixels g (corner r step) (corner c step) step).
Proof.
  intros HW HH Hg Hstep. pose proof Hg as (Hw & Hh & _).
  destruct (blocks_cover H step Hstep ltac:(lia)) as (Hnb & Hcover & Hin).
  unfold pixellate.
  rewrite (bind_lift_ok _ _ g tt) by (destruct (Z.ltb_spec 0 step); [done|lia]).
  rewrite (bind_ok Current.getWidth _ g W g)
    by (unfold Current.getWidth, Image.getWidth; by rewrite Hw).
  rewrite (bind_ok Current.getHeight _ g H g)
    by (unfold Current.getHeight, Image.getHeight; by rewrite Hh).
  unfold range3 at 1. rewrite for_fmap.
  destruct (for_range
    (λ i s', grid W H s'
       ∧ (∀ r c, 0 ≤ r < H → 0 ≤ c < W → r < i * step →
            pix s' r c = mean_rgb (block_pixels g (corner r step) (corner c step) step))
       ∧ (∀ r c, 0 ≤ r < H → 0 ≤ c < W → i * step ≤ r → pix s' r c = pix g r c))
    (λ i, for_ (range3 0 W step) (λ y, _avgRGB (0 + i * step) y step))
    0 ((H - 0 + step - 1) / step) g) as (g' & Hfor & Hg' & Hmean & _); [done| | |].
  - intros i s1 Hi (Hg1 & Hdone & Hrest).
    apply (pixellate_block_row W H g s1 i step); try done; [lia|].
    apply Hin. lia.
  - split; [done|]. split; [intros; lia|done].
  - exists g'. split; [done|]. split; [done|].
    intros r c Hr Hc. apply Hmean; [done|done|]. lia.
Qed.

Lemma channel_sum_const (f : pixel → Z) (m : pixel) (ps : list pixel) :
  Forall (λ p, p = m) ps → channel_sum f ps = f m * len ps.
Proof.
  induction 1 as [|p ps -> _ IH]; [unfold len; simpl; lia|].
  change (channel_sum f (m :: ps)) with (f m + channel_sum f ps).
  rewrite IH. unfold len. simpl length. lia.
Qed.

Lemma mean_rgb_const (m : pixel) (ps : list pixel) :
  ps ≠ [] → Forall (λ p, p = m) ps → mean_rgb ps = m.
Proof.
  intros Hne Hall.
  assert (len ps ≠ 0) as Hn by (destruct ps; [done|unfold len; simpl; lia]).
  unfold mean_rgb. rewrite !(channel_sum_const _ m ps Hall).
  rewrite !Z.quot_mul by done. by destruct m as [[r g] b].
Qed.

Lemma corner_bounds (r step : Z) :
  0 < step → 0 ≤ r →
  0 ≤ r / step ∧ r / step * step ≤ r < r / step * step + step.
Proof.
  intros Hstep Hr. split; [apply Z.div_pos; lia|].
  pose proof (Z.div_mod r step ltac:(lia)).
  pose proof (Z.mod_pos_bound r step Hstep). lia.
Qed.

(** Where the pixels of a block are all of one colour, [pixellate] leaves
    that colour. *)
Lemma pixellate_uniform_block (W H : Z) (g : Image.t) (step r c : Z) (m : pixel) :
  0 < W → 0 < H → grid W H g → 0 < step → 0 ≤ r < H → 0 ≤ c < W →
  (∀ r' c', 0 ≤ r' < H → 0 ≤ c' < W →
            corner r' step = corner r step → corner c' step = corner c step →
            pix g r' c' = m) →
  mean_rgb (block_pixels g (corner r step) (corner c step) step) = m.
Proof.
  intros HW HH Hg Hstep Hr Hc Hall.
  destruct (corner_bounds r step Hstep ltac:(lia)) as (Hi & Hri).
  destruct (corner_bounds c step Hstep ltac:(lia)) as (Hj & Hcj).
  unfold corner in *.
  apply mean_rgb_const.
  - apply (block_pixels_nonempty W H); [done|lia|lia|done].
  - apply Forall_forall. intros p Hp.
    apply (block_pixels_elem W H) in Hp as (r' & c' & -> & Hr' & Hc'); [|done].
    apply Hall; [lia|lia| |].
    + apply (corner_in_block step (r / step) r'); [done|lia].
    + apply (corner_in_block step (c / step) c'); [done|lia].
Qed.

(** [pixellate] is idempotent: a second call with the same step changes
    nothing. *)
Theorem pixellate_idempotent (g : Image.t) (step : Z) :
  Image.wf g → 0 < step →
  ∃ g', pixellate step g = (Ok tt, g') ∧ pixellate step g' = (Ok tt, g').
Proof.
  intros Hwf Hstep. pose proof Hwf as (HW & HH & _).
  pose proof (wf_grid g Hwf) as Hg.
  set (W := Image.width g) in *. set (H := Image.height g) in *.
  destruct (pixellate_spec W H g step HW HH Hg Hstep) as (g1 & Hp1 & Hg1 & Hm1).
  destruct (pixellate_spec W H g1 step HW HH Hg1 Hstep) as (g2 & Hp2 & Hg2 & Hm2).
  exists g1. split; [done|]. rewrite Hp2. f_equal.
  apply (image_ext W H); [done..|]. intros r c Hr Hc.
  rewrite Hm2, Hm1 by done.
  apply (pixellate_uniform_block W H); try done.
  intros r' c' Hr' Hc' Er Ec. rewrite Hm1 by done. by rewrite Er, Ec.
Qed.

Lemma pixellate_idempotent_witness :
  ∃ g', pixellate 2 nine_pixels = (Ok tt, g') ∧ pixellate 2 g' = (Ok tt, g').
Proof.
  apply (pixellate_idempotent nine_pixels 2).
  - unfold Image.wf. simpl. repeat split; try lia. repeat constructor.
  - lia.
Defined.

(** With a step of 1 every block is one pixel: [pixellate(1)] changes
    nothing. *)
Theorem pixellate_step_one (g : Image.t) :
  Image.wf g → pixellate 1 g = (Ok tt, g).
Proof.
  intros Hwf. pose proof Hwf as (HW & HH & _).
  pose proof (wf_grid g Hwf) as Hg.
  set (W := Image.width g) in *. set (H := Image.height g) in *.
  destruct (pixellate_spec W H g 1 HW HH Hg ltac:(lia)) as (g1 & Hp1 & Hg1 & Hm1).
  rewrite Hp1. f_equal. apply (image_ext W H); [done..|].
  intros r c Hr Hc. rewrite Hm1 by done.
  apply (pixellate_uniform_block W H); try done.
  intros r' c' Hr' Hc'. unfold corner. rewrite !Z.div_1_r, !Z.mul_1_r.
  by intros -> ->.
Qed.

Lemma pixellate_step_one_witness :
  pixellate 1 nine_pixels = (Ok tt, nine_pixels).
Proof.
  apply (pixellate_step_one nine_pixels).
  unfold Image.wf. simpl. repeat split; try lia. repeat constructor.
Defined.

Lemma grid_row_flat (W : Z) (l : list pixel) (r : Z) :
  0 < W → 0 ≤ r → (r + 1) * W ≤ len l →
  (λ c, default (0, 0, 0) (l !! Z.to_nat (r * W + c))) <$> seqZ 0 W
  = take (Z.to_nat W) (drop (Z.to_nat (r * W)) l).
Proof.
  intros HW Hr Hlen. unfold len in Hlen.
  apply list_eq. intros i. rewrite list_lookup_fmap.
  destruct (decide (Z.of_nat i < W)) as [Hi|Hi].
  - rewrite lookup_seqZ_lt by done. simpl.
    rewrite lookup_take_lt, lookup_drop by lia.
    replace (Z.to_nat (r * W + (0 + Z.of_nat i))) with (Z.to_nat (r * W) + i)%nat by lia.
    destruct (lookup_lt_is_Some_2 l (Z.to_nat (r * W) + i)) as [p Hp]; [nia|].
    by rewrite Hp.
  - rewrite lookup_seqZ_ge by lia. simpl.
    rewrite lookup_take. by rewrite decide_False by lia.
Qed.

Lemma grid_rows_flat (W : Z) (l : list pixel) (n : nat) :
  0 < W → Z.of_nat n * W ≤ len l →
  (r ← seqZ 0 (Z.of_nat n);
   (λ c, default (0, 0, 0) (l !! Z.to_nat (r * W + c))) <$> seqZ 0 W)
  = take (Z.to_nat (Z.of_nat n * W)) l.
Proof.
  intros HW. induction n as [|n IH]; intros Hlen; [done|].
  rewrite seqZ_S, bind_app, IH by lia.
  simpl. rewrite app_nil_r, Z.add_0_l, grid_row_flat by lia.
  rewrite take_take_drop. f_equal. lia.
Qed.

(** With a step that reaches past both edges there is one block: every
    pixel becomes the truncated mean of all the pixels of the image. *)
Theorem pixellate_whole_image (g : Image.t) (step : Z) :
  Image.wf g → Image.width g ≤ step → Image.height g ≤ step →
  ∃ g', pixellate step g = (Ok tt, g')
        ∧ Image.width g' = Image.width g ∧ Image.height g' = Image.height g
        ∧ ∀ row col, 0 ≤ row < Image.height g → 0 ≤ col < Image.width g →
            Image.getPixel g' row col = Ok (mean_rgb (Image.data g)).
Proof.
  intros Hwf Hws Hhs. pose proof Hwf as (HW & HH & Hlen & _).
  pose proof (wf_grid g Hwf) as Hg.
  set (W := Image.width g) in *. set (H := Image.height g) in *.
  destruct (pixellate_spec W H g step HW HH Hg ltac:(lia)) as (g1 & Hp1 & Hg1 & Hm1).
  pose proof Hg1 as (Hw1 & Hh1 & _).
  exists g1. split; [done|]. split; [done|]. split; [done|].
  intros r c Hr Hc. rewrite (getPixel_pix W H g1 r c Hg1 Hr Hc), Hm1 by done.
  do 2 f_equal.
  assert (corner r step = 0) as -> by (unfold corner; rewrite Z.div_small by lia; lia).
  assert (corner c step = 0) as -> by (unfold corner; rewrite Z.div_small by lia; lia).
  unfold block_pixels, block_rows, block_cols. fold W H.
  rewrite !Z.add_0_l, !Z.min_r, !Z.sub_0_r by lia.
  replace H with (Z.of_nat (Z.to_nat H)) at 1 by lia.
  change (pix g) with (λ r c, default (0, 0, 0) (Image.data g !! Z.to_nat (r * W + c))).
  cbv beta. rewrite grid_rows_flat by lia.
  apply take_ge. unfold len in Hlen. lia.
Qed.

Lemma pixellate_whole_image_witness :
  ∃ g', pixellate 3 nine_pixels = (Ok tt, g')
        ∧ Image.width g' = Image.width nine_pixels
        ∧ Image.height g' = Image.height nine_pixels
        ∧ ∀ row col, 0 ≤ row < Image.height nine_pixels →
                     0 ≤ col < Image.width nine_pixels →
            Image.getPixel g' row col = Ok (mean_rgb (Image.data nine_pixels)).
Proof.
  apply (pixellate_whole_image nine_pixels 3).
  - unfold Image.wf. simpl. repeat split; try lia. repeat constructor.
  - simpl. lia.
  - simpl. lia.
Defined.

(** ** More on the steganographic channel *)

Lemma encode_channel_close (channel digit : Z) :
  0 ≤ channel ≤ 255 → 0 ≤ digit ≤ 9 →
  -9 ≤ encode_channel channel digit - channel ≤ 9.
Proof.
  intros Hc Hd. unfold encode_channel. cbv zeta.
  destruct (Z.ltb_spec 255 (channel / 10 * 10 + digit)) as [Hov|Hov];
    revert Hov; Z.div_mod_to_equations; lia.
Qed.

Lemma hide_close (p : pixel) (c : Z) :
  Image.is_pixel p = true → 0 ≤ c ≤ 255 → close p (hide p c).
Proof.
  destruct p as [[r g] b]. intros Hp Hc. simpl in Hp.
  apply andb_prop in Hp as [[Hr Hg]%andb_prop Hb].
  apply is_channel_inv in Hr, Hg, Hb.
  assert (0 ≤ c / 100 ≤ 9) as Ha by (Z.div_mod_to_equations; lia).
  assert (0 ≤ (c / 10) mod 10 ≤ 9) as Hb' by (Z.div_mod_to_equations; lia).
  assert (0 ≤ c mod 10 ≤ 9) as Hc' by (Z.div_mod_to_equations; lia).
  unfold close, hide.
  pose proof (encode_channel_close r _ Hr Ha).
  pose proof (encode_channel_close g _ Hg Hb').
  pose proof (encode_channel_close b _ Hb Hc'). done.
Qed.

(** [_encode_pixel] then [_decode_pixel] at the same position gives back the
    code; the pixel keeps every channel within 9 of what it was, and no
    other pixel changes. *)
Theorem encode_decode_pixel (s : Image.t) (pos c : Z) (p : pixel) :
  0 ≤ pos → Image.data s !! Z.to_nat pos = Some p →
  Image.is_pixel p = true → 0 ≤ c ≤ 255 →
  ∃ s' p', _encode_pixel pos c s = (Ok tt, s')
           ∧ _decode_pixel pos s' = (Ok c, s')
           ∧ Image.width s' = Image.width s ∧ Image.height s' = Image.height s
           ∧ Image.data s' !! Z.to_nat pos = Some p'
           ∧ Image.is_pixel p' = true ∧ close p p'
           ∧ ∀ i, i ≠ Z.to_nat pos → Image.data s' !! i = Image.data s !! i.
Proof.
  intros Hpos Hlook Hp Hc.
  destruct (hide_spec p c Hp Hc) as [Hvalid Hhidden].
  pose proof (lookup_lt_Some _ _ _ Hlook) as Hlt.
  exists (Image.write s pos (hide p c)), (hide p c).
  assert (Image.data (Image.write s pos (hide p c)) !! Z.to_nat pos
          = Some (hide p c)) as Hnew by (by apply write_lookup_eq).
  split; [by apply encode_pixel_spec|]. split.
  { rewrite (decode_pixel_spec _ pos (hide p c)) by done. by rewrite Hhidden. }
  split; [done|]. split; [done|]. split; [done|]. split; [done|].
  split; [by apply hide_close|].
  intros i Hi. unfold Image.write. simpl. by apply list_lookup_insert_ne.
Qed.

Lemma encode_decode_pixel_witness :
  ∃ s' p', _encode_pixel 1 165 ten_pixels = (Ok tt, s')
           ∧ _decode_pixel 1 s' = (Ok 165, s')
           ∧ Image.width s' = Image.width ten_pixels
           ∧ Image.height s' = Image.height ten_pixels
           ∧ Image.data s' !! Z.to_nat 1 = Some p'
           ∧ Image.is_pixel p' = true ∧ close (254, 254, 254) p'
           ∧ ∀ i, i ≠ Z.to_nat 1 → Image.data s' !! i = Image.data ten_pixels !! i.
Proof.
  apply (encode_decode_pixel ten_pixels 1 165 (254, 254, 254)).
  - lia.
  - reflexivity.
  - reflexivity.
  - lia.
Defined.

Lemma encode_pixel_rejects (s : Image.t) (pos c : Z) :
  ¬ (0 ≤ c ≤ 255) → _encode_pixel pos c s = (Raise AssertionError, s).
Proof.
  intros Hc. unfold _encode_pixel.
  destruct (Z.leb_spec 0 c) as [H0|H0]; [|done].
  rewrite (bind_lift_ok _ _ s tt) by done.
  destruct (Z.leb_spec c 255) as [H1|H1]; [lia|done].
Qed.

(** The first [K] rounds of the loop of [_ASCII_encode], where the first
    [K] codes are in [0,255]. *)
Lemma ASCII_encode_prefix (codes : list Z) (K : Z) (s : Image.t) :
  0 ≤ K ≤ len codes →
  (∀ i c, Z.of_nat i < K → codes !! i = Some c → 0 ≤ c ≤ 255) →
  K ≤ len (Image.data s) →
  Forall (λ p, Image.is_pixel p = true) (Image.data s) →
  ∃ s', for_ (seqZ 0 K) (λ x,
          value ← lift (py_getitem codes x); _encode_pixel x value) s
        = (Ok tt, s')
        ∧ Image.width s' = Image.width s ∧ Image.height s' = Image.height s
        ∧ length (Image.data s') = length (Image.data s)
        ∧ Forall (λ p, Image.is_pixel p = true) (Image.data s')
        ∧ (∀ i c, Z.of_nat i < K → codes !! i = Some c →
             ∃ p, Image.data s !! i = Some p
                  ∧ Image.data s' !! i = Some (hide p c))
        ∧ (∀ i, K ≤ Z.of_nat i → Image.data s' !! i = Image.data s !! i).
Proof.
  intros HK Hcodes Hfit Hpx.
  destruct (for_range
    (λ k s', Image.width s' = Image.width s ∧ Image.height s' = Image.height s
             ∧ length (Image.data s') = length (Image.data s)
             ∧ Forall (λ p, Image.is_pixel p = true) (Image.data s')
             ∧ (∀ i c, Z.of_nat i < k → codes !! i = Some c →
                  ∃ p, Image.data s !! i = Some p
                       ∧ Image.data s' !! i = Some (hide p c))
             ∧ (∀ i, k ≤ Z.of_nat i → Image.data s' !! i = Image.data s !! i))
    (λ x, value ← lift (py_getitem codes x); _encode_pixel x value)
    0 K s) as (s' & Hfor & Hw & Hh & Hlen & Hpx' & Hdone & Hrest); [lia| | |].
  - intros k s1 Hk (Hw & Hh & Hlen & Hpx1 & Hdone & Hrest).
    destruct (lookup_lt_is_Some_2 codes (Z.to_nat k)) as [c Hc];
      [unfold len in HK; lia|].
    destruct (lookup_lt_is_Some_2 (Image.data s) (Z.to_nat k)) as [p Hp];
      [unfold len in Hfit; lia|].
    assert (Image.data s1 !! Z.to_nat k = Some p) as Hp1
      by (rewrite Hrest by lia; done).
    assert (0 ≤ c ≤ 255) as Hcr by (apply (Hcodes (Z.to_nat k)); [lia|done]).
    pose proof (Forall_lookup_1 _ _ _ _ Hpx1 Hp1) as Hpv. simpl in Hpv.
    destruct (hide_spec p c Hpv Hcr) as [Hvalid Hhidden].
    rewrite (bind_lift_ok _ _ s1 c) by (apply py_getitem_lookup; [lia|done]).
    rewrite (encode_pixel_spec s1 k c p) by (done || lia).
    eexists. split; [done|]. unfold Image.write. simpl.
    rewrite length_insert. repeat split; try done.
    + by apply Forall_insert.
    + intros i c' Hi Hc'. destruct (decide (i = Z.to_nat k)) as [->|Hne'].
      * rewrite list_lookup_insert_eq by (apply lookup_lt_Some in Hp1; lia).
        exists p. split; [done|]. congruence.
      * rewrite list_lookup_insert_ne by done. apply Hdone; [lia|done].
    + intros i Hi. rewrite list_lookup_insert_ne by lia. apply Hrest. lia.
  - repeat split; try done. intros i c Hi. lia.
  - exists s'. rewrite Z.add_0_l in *. done.
Qed.

Lemma marker_codes (n : Z) :
  0 ≤ n →
  Forall (λ c, 0 ≤ c ≤ 255) (marker_start ++ str_int n ++ marker_end)
  ∧ len (marker_start ++ str_int n ++ marker_end) = 4 + digitCount n.
Proof.
  intros Hn. destruct (str_int_spec n Hn) as (_ & Hds & _ & _).
  destruct (digits_are_codes _ Hds) as [Hcodes _]. split.
  - apply Forall_cons; split; [lia|]. apply Forall_cons; split; [lia|].
    apply Forall_app. split; [done|]. repeat constructor; lia.
  - unfold digitCount, len. rewrite !length_app. simpl. lia.
Qed.

(** A successful [encode] writes the frame and nothing else: it keeps the
    number of pixels, leaves every pixel after the frame as it was, and
    moves no channel of any pixel by more than 9. *)
Theorem encode_touches_frame_only (g : Image.t) (text : pystr) :
  Image.wf g →
  len text ≤ 999999 →
  Forall (λ c, 0 ≤ c ≤ 255) text →
  4 + digitCount (len text) + len text ≤ Image.getLength g →
  ∃ g', encode text g = (Ok true, g')
        ∧ Image.width g' = Image.width g ∧ Image.height g' = Image.height g
        ∧ length (Image.data g') = length (Image.data g)
        ∧ (∀ i, 4 + digitCount (len text) + len text ≤ Z.of_nat i →
                Image.data g' !! i = Image.data g !! i)
        ∧ (∀ i p p', Image.data g !! i = Some p → Image.data g' !! i = Some p' →
                     close p p').
Proof.
  intros (_ & _ & _ & Hpx) Hlen Htext Hfit.
  set (n := len text) in *.
  assert (0 ≤ n) as Hn by (unfold n, len; lia).
  destruct (marker_codes n Hn) as [Hmcodes Hmlen].
  set (marker := marker_start ++ str_int n ++ marker_end) in *.
  set (codes := marker ++ text).
  assert (len codes = 4 + digitCount n + n) as Hclen.
  { unfold codes, len in *. rewrite length_app, Nat2Z.inj_add, Hmlen.
    change (Z.of_nat (length text)) with n. lia. }
  assert (Forall (λ c, 0 ≤ c ≤ 255) codes) as Hcodes
    by (apply Forall_app; done).
  unfold Image.getLength in Hfit.
  destruct (ASCII_encode_prefix codes (len codes) g)
    as (g' & Hfor & Hw & Hh & Hl & Hpx' & Hdone & Hrest).
  { unfold len. lia. }
  { intros i c _ Hc. exact (Forall_lookup_1 _ _ _ _ Hcodes Hc). }
  { lia. }
  { done. }
  exists g'. split; [|split; [done|split; [done|split; [done|split]]]].
  - unfold encode. fold n.
    destruct (Z.ltb_spec 999999 n); [lia|].
    rewrite (bind_ok Current.getLength _ g (Image.getLength g) g) by done.
    unfold digitCount in Hfit.
    destruct (Z.ltb_spec (Image.getLength g) (len (str_int n) + 4 + n));
      [unfold Image.getLength in *; lia|].
    rewrite !text_to_ASCII_id. fold marker. fold codes.
    assert (_ASCII_encode codes g = (Ok tt, g')) as Henc.
    { unfold _ASCII_encode. rewrite (bind_lift_ok _ _ g tt) by done.
      unfold range. done. }
    by rewrite (bind_ok _ _ _ _ _ Henc).
  - intros i Hi. apply Hrest. lia.
  - intros i p p' Hp Hp'.
    destruct (decide (Z.of_nat i < len codes)) as [Hi|Hi].
    + destruct (lookup_lt_is_Some_2 codes i) as [c Hc]; [unfold len in Hi; lia|].
      destruct (Hdone i c Hi Hc) as (q & Hq & Hq').
      assert (q = p) as -> by congruence.
      assert (p' = hide p c) as -> by congruence.
      apply hide_close.
      * exact (Forall_lookup_1 _ _ _ _ Hpx Hp).
      * exact (Forall_lookup_1 _ _ _ _ Hcodes Hc).
    + rewrite Hrest in Hp' by lia. assert (p' = p) as -> by congruence.
      destruct p as [[r gg] b]. unfold close. lia.
Qed.

Lemma encode_touches_frame_only_witness :
  ∃ g', encode [72; 105] ten_pixels = (Ok true, g')
        ∧ Image.width g' = Image.width ten_pixels
        ∧ Image.height g' = Image.height ten_pixels
        ∧ length (Image.data g') = length (Image.data ten_pixels)
        ∧ (∀ i, 4 + digitCount (len [72; 105]) + len [72; 105] ≤ Z.of_nat i →
                Image.data g' !! i = Image.data ten_pixels !! i)
        ∧ (∀ i p p', Image.data ten_pixels !! i = Some p →
                     Image.data g' !! i = Some p' → close p p').
Proof.
  apply (encode_touches_frame_only ten_pixels [72; 105]).
  - unfold Image.wf. simpl. repeat split; try lia. repeat constructor.
  - vm_compute. discriminate.
  - repeat constructor; lia.
  - vm_compute. discriminate.
Defined.

Lemma for_app {A : Type} (xs ys : list A) (body : A → M unit) (s : Image.t) :
  for_ (xs ++ ys) body s = (for_ xs body ≫= λ _, for_ ys body) s.
Proof.
  revert s. induction xs as [|x xs IH]; intros s; [done|].
  simpl. unfold mbind, M_mbind, bind.
  destruct (body x s) as [[[]|e] s1]; [|done]. apply IH.
Qed.

Lemma first_outside (l : list Z) :
  ¬ Forall (λ c, 0 ≤ c ≤ 255) l →
  ∃ good bad rest, l = good ++ bad :: rest
                   ∧ Forall (λ c, 0 ≤ c ≤ 255) good ∧ ¬ (0 ≤ bad ≤ 255).
Proof.
  induction l as [|c l IH]; intros Hn; [by destruct Hn|].
  destruct (decide (0 ≤ c ≤ 255)) as [Hc|Hc].
  - destruct IH as (good & bad & rest & -> & Hgood & Hbad).
    { intros Hl. apply Hn. by constructor. }
    exists (c :: good), bad, rest. split; [done|]. split; [by constructor|done].
  - exists [], c, l. done.
Qed.

(** A text that fits but holds a character code outside [0,255] makes
    [encode] raise [AssertionError], and not before the marker has been
    hidden in the first pixels: the failure is not atomic. *)
Theorem encode_rejects_code_outside (g : Image.t) (text : pystr) :
  Image.wf g →
  len text ≤ 999999 →
  4 + digitCount (len text) + len text ≤ Image.getLength g →
  ¬ Forall (λ c, 0 ≤ c ≤ 255) text →
  ∃ g', encode text g = (Raise AssertionError, g')
        ∧ ∀ i c, (marker_start ++ str_int (len text) ++ marker_end) !! i = Some c →
                 hidden <$> Image.data g' !! i = Some c.
Proof.
  intros (_ & _ & _ & Hpx) Hlen Hfit Hbad.
  set (n := len text) in *.
  assert (0 ≤ n) as Hn by (unfold n, len; lia).
  destruct (marker_codes n Hn) as [Hmcodes Hmlen].
  set (marker := marker_start ++ str_int n ++ marker_end) in *.
  destruct (first_outside text Hbad) as (good & bad & rest & Htext & Hgood & Hb).
  set (codes := marker ++ text).
  set (K := len (marker ++ good)).
  assert (codes = (marker ++ good) ++ bad :: rest) as Hsplit
    by (unfold codes; rewrite Htext; by rewrite app_assoc).
  assert (len codes = K + (1 + len rest)) as Hclen.
  { rewrite Hsplit. unfold K, len. rewrite !length_app. simpl. lia. }
  assert (len codes = 4 + digitCount n + n) as Hclen'.
  { unfold codes, len in *. rewrite length_app, Nat2Z.inj_add, Hmlen.
    change (Z.of_nat (length text)) with n. lia. }
  assert (0 ≤ K) as HK0 by (unfold K, len; lia).
  assert (codes !! Z.to_nat K = Some bad) as HbadK.
  { rewrite Hsplit. unfold K, len. rewrite Nat2Z.id.
    rewrite lookup_app_r by lia. by rewrite Nat.sub_diag. }
  unfold Image.getLength in Hfit.
  destruct (ASCII_encode_prefix codes K g)
    as (g' & Hfor & Hw & Hh & Hl & Hpx' & Hdone & Hrest).
  { unfold len in *. lia. }
  { intros i c Hi Hc. rewrite Hsplit in Hc.
    rewrite lookup_app_l in Hc by (unfold K, len in Hi; lia).
    assert (Forall (λ c, 0 ≤ c ≤ 255) (marker ++ good)) as Hpre
      by (apply Forall_app; done).
    exact (Forall_lookup_1 _ _ _ _ Hpre Hc). }
  { unfold len in *. lia. }
  { done. }
  assert (_ASCII_encode codes g = (Raise AssertionError, g')) as Henc.
  { unfold _ASCII_encode. rewrite (bind_lift_ok _ _ g tt) by done.
    unfold range. rewrite Hclen, seqZ_app, for_app by (unfold len; lia).
    rewrite (bind_ok _ _ _ _ _ Hfor).
    rewrite seqZ_cons by (unfold len; lia). simpl for_. unfold bind at 1.
    rewrite Z.add_0_l.
    rewrite (bind_lift_ok _ _ g' bad) by (by apply py_getitem_lookup).
    by rewrite encode_pixel_rejects. }
  exists g'. split.
  - unfold encode. fold n.
    destruct (Z.ltb_spec 999999 n); [lia|].
    rewrite (bind_ok Current.getLength _ g (Image.getLength g) g) by done.
    unfold digitCount in Hfit, Hclen'.
    destruct (Z.ltb_spec (Image.getLength g) (len (str_int n) + 4 + n));
      [unfold Image.getLength in *; lia|].
    rewrite !text_to_ASCII_id. fold marker. fold codes.
    by rewrite (bind_raise _ _ _ _ _ Henc).
  - intros i c Hc.
    assert (codes !! i = Some c) as Hc'
      by (unfold codes; by apply lookup_app_l_Some).
    destruct (Hdone i c) as (p & Hp & Hp'); [|done|].
    { apply lookup_lt_Some in Hc. unfold K, len. rewrite length_app. lia. }
    rewrite Hp'. simpl. f_equal. apply hide_spec.
    + exact (Forall_lookup_1 _ _ _ _ Hpx Hp).
    + exact (Forall_lookup_1 _ _ _ _ Hmcodes Hc).
Qed.

Lemma encode_rejects_code_outside_witness :
  ∃ g', encode [72; 256] ten_pixels = (Raise AssertionError, g')
        ∧ ∀ i c, (marker_start ++ str_int (len [72; 256]) ++ marker_end) !! i = Some c →
                 hidden <$> Image.data g' !! i = Some c.
Proof.
  apply (encode_rejects_code_outside ten_pixels [72; 256]).
  - unfold Image.wf. simpl. repeat split; try lia. repeat constructor.
  - vm_compute. discriminate.
  - vm_compute. discriminate.
  - intros H. apply Forall_cons_1 in H as [_ H].
    apply Forall_cons_1 in H as [H _]. lia.
Defined.

Lemma decode_on (s : Image.t) :
  decode s
  = (let message_code := hidden <$> Image.data s in
     is_marker ← lift (_isMarker message_code);
     if negb is_marker then ret None else
     length_text ← lift (_getLengthCode message_code);
     let charac_length := len (py_str length_text) in
     let start := 4 + charac_length in
     let stop := start + as_int length_text in
     let text_code := py_slice message_code start stop in
     text ← lift (_translate_ASCII text_code);
     ret (Some text)) s.
Proof. unfold decode. by rewrite (bind_ok _ _ _ _ _ (pixels_to_ASCII_spec s)). Qed.

(** The empty text is hidden and not found again, on every grid of at least
    five pixels: [encode] returns [True], and [decode] on the result returns
    [None], because the parsed length 0 compares equal to [False]. *)
Theorem empty_text_is_lost (g : Image.t) :
  Image.wf g → 5 ≤ Image.getLength g →
  ∃ g', encode [] g = (Ok true, g') ∧ decode g' = (Ok None, g').
Proof.
  intros (_ & _ & _ & Hpx) Hfit. unfold Image.getLength in Hfit.
  set (codes := [125; 126; 48; 126; 123]).
  destruct (ASCII_encode_prefix codes 5 g)
    as (g' & Hfor & Hw & Hh & Hl & Hpx' & Hdone & Hrest).
  { done. }
  { intros i c Hi Hc.
    assert (Forall (λ c, 0 ≤ c ≤ 255) codes) as Hall by (repeat constructor; lia).
    exact (Forall_lookup_1 _ _ _ _ Hall Hc). }
  { done. }
  { done. }
  exists g'. split.
  - unfold encode. change (len (@nil Z)) with 0.
    change (999999 <? 0) with false. cbv iota.
    rewrite (bind_ok Current.getLength _ g (Image.getLength g) g) by done.
    change (len (str_int 0) + 4 + 0) with 5.
    destruct (Z.ltb_spec (Image.getLength g) 5);
      [unfold Image.getLength in *; lia|].
    assert (_ASCII_encode codes g = (Ok tt, g')) as Henc.
    { unfold _ASCII_encode. rewrite (bind_lift_ok _ _ g tt) by done. done. }
    change (_text_to_ASCII (marker_start ++ str_int 0 ++ marker_end)
            ++ _text_to_ASCII []) with codes.
    by rewrite (bind_ok _ _ _ _ _ Henc).
  - rewrite decode_on. cbv zeta.
    assert (hidden <$> Image.data g'
            = codes ++ drop (length codes) (hidden <$> Image.data g')) as Hcode.
    { apply prefix_of_lookups. intros i c Hc. rewrite list_lookup_fmap.
      destruct (Hdone i c) as (p & Hp & Hp'); [|done|].
      { apply lookup_lt_Some in Hc. simpl in Hc. lia. }
      rewrite Hp'. simpl. f_equal. apply hide_spec.
      - exact (Forall_lookup_1 _ _ _ _ Hpx Hp).
      - assert (Forall (λ c, 0 ≤ c ≤ 255) codes) as Hall by (repeat constructor; lia).
        exact (Forall_lookup_1 _ _ _ _ Hall Hc). }
    set (junk := drop (length codes) (hidden <$> Image.data g')) in *.
    rewrite Hcode.
    assert (_isMarker (codes ++ junk) = Ok false) as Hmark.
    { unfold _isMarker, codes.
      change (eq_False (_is_ASCII _)) with false. cbv iota.
      change (take 2 _) with [125; 126].
      rewrite bool_decide_eq_true_2 by done.
      change (negb true) with false. cbv iota.
      change (list_index (drop 2 ([125; 126; 48; 126; 123] ++ junk)) 126)
        with (@Ok Z (0 + 1)).
      change (Ok (0 + 1) ≫= ?k) with (k (0 + 1)). cbv beta zeta.
      rewrite (py_getitem_lookup _ (0 + 1 + 2 + 1) 123) by done.
      change (Ok 123 ≫= ?k) with (k 123). cbv beta.
      change (negb (123 =? 123)) with false. cbv iota.
      change (py_slice ([125; 126; 48; 126; 123] ++ junk) 2 (0 + 1 + 2))
        with (py_slice ([125; 126] ++ [48] ++ [126; 123] ++ junk)
                       (len [125; 126]) (len [125; 126] + len [48])).
      rewrite (py_slice_mid [125; 126] [48] ([126; 123] ++ junk)).
      done. }
    by rewrite (bind_lift_ok _ _ g' false Hmark).
Qed.

Lemma empty_text_is_lost_witness :
  ∃ g', encode [] ten_pixels = (Ok true, g') ∧ decode g' = (Ok None, g').
Proof.
  apply (empty_text_is_lost ten_pixels).
  - unfold Image.wf. simpl. repeat split; try lia. repeat constructor.
  - vm_compute. discriminate.
Defined.

(** On every image whose first two channel-digit numbers are not 125 and
    126, an image of fewer than two pixels included, [decode] returns [None]
    without raising. *)
Theorem decode_none_without_marker_start (g : Image.t) :
  take 2 (hidden <$> Image.data g) ≠ [125; 126] →
  decode g = (Ok None, g).
Proof.
  intros Hstart. rewrite decode_on. cbv zeta.
  assert (_isMarker (hidden <$> Image.data g) = Ok false) as Hmark.
  { unfold _isMarker.
    destruct (eq_False (_is_ASCII (hidden <$> Image.data g))); [done|].
    by rewrite bool_decide_eq_false_2. }
  by rewrite (bind_lift_ok _ _ g false Hmark).
Qed.

Lemma decode_none_without_marker_start_witness :
  decode ten_pixels = (Ok None, ten_pixels).
Proof.
  apply (decode_none_without_marker_start ten_pixels).
  vm_compute. discriminate.
Defined.

Lemma list_index_missing (l : list Z) (v : Z) :
  Forall (λ d, d ≠ v) l → list_index l v = Raise ValueError.
Proof.
  induction 1 as [|d l Hd _ IH]; simpl; [done|].
  destruct (Z.eqb_spec d v); [done|]. by rewrite IH.
Qed.

Lemma py_getitem_beyond {A : Type} (l : list A) (i : Z) :
  len l ≤ i → py_getitem l i = Raise IndexError.
Proof.
  intros Hi. unfold py_getitem.
  assert (0 ≤ len l) by (unfold len; lia).
  destruct (Z.ltb_spec i 0); [lia|].
  destruct (Z.leb_spec 0 i); [|lia].
  destruct (Z.ltb_spec i (len l)); [lia|done].
Qed.

(** Where the channel-digit numbers start with 125, 126 and no 126 follows,
    [decode] raises [ValueError], from [rest.index(126)] in [_isMarker]. *)
Theorem decode_raises_without_second_tilde (g : Image.t) (rest : list Z) :
  hidden <$> Image.data g = 125 :: 126 :: rest →
  Forall (λ d, d ≠ 126) rest →
  decode g = (Raise ValueError, g).
Proof.
  intros Hcode Hrest. rewrite decode_on, Hcode. cbv zeta.
  assert (_isMarker (125 :: 126 :: rest) = Raise ValueError) as Hmark.
  { unfold _isMarker. change (eq_False (_is_ASCII _)) with false. cbv iota.
    change (take 2 _) with [125; 126].
    rewrite bool_decide_eq_true_2 by done.
    change (negb true) with false. cbv iota.
    change (drop 2 (125 :: 126 :: rest)) with rest.
    by rewrite list_index_missing. }
  unfold mbind, M_mbind, bind, lift. by rewrite Hmark.
Qed.

Lemma decode_raises_without_second_tilde_witness :
  decode no_closing_marker = (Raise ValueError, no_closing_marker).
Proof.
  apply (decode_raises_without_second_tilde no_closing_marker [57]).
  - reflexivity.
  - repeat constructor. lia.
Defined.

(** Where the only 126 after the opening pair is the last channel-digit
    number, [decode] raises [IndexError], from [thelist[pos+1]]. *)
Theorem decode_raises_when_tilde_is_last (g : Image.t) (digits : list Z) :
  hidden <$> Image.data g = 125 :: 126 :: digits ++ [126] →
  Forall (λ d, d ≠ 126) digits →
  decode g = (Raise IndexError, g).
Proof.
  intros Hcode Hdigits. rewrite decode_on, Hcode. cbv zeta.
  assert (_isMarker (125 :: 126 :: digits ++ [126]) = Raise IndexError) as Hmark.
  { unfold _isMarker. change (eq_False (_is_ASCII _)) with false. cbv iota.
    change (take 2 _) with [125; 126].
    rewrite bool_decide_eq_true_2 by done.
    change (negb true) with false. cbv iota.
    change (drop 2 (125 :: 126 :: digits ++ [126])) with (digits ++ [126]).
    rewrite (list_index_app digits [] 126 Hdigits).
    change (Ok (len digits) ≫= ?k) with (k (len digits)). cbv beta zeta.
    rewrite py_getitem_beyond; [done|].
    unfold len. simpl. rewrite length_app. simpl. lia. }
  unfold mbind, M_mbind, bind, lift. by rewrite Hmark.
Qed.

Lemma decode_raises_when_tilde_is_last_witness :
  decode (strip [(1, 2, 5); (1, 2, 6); (0, 5, 7); (1, 2, 6)])
  = (Raise IndexError, strip [(1, 2, 5); (1, 2, 6); (0, 5, 7); (1, 2, 6)]).
Proof.
  apply (decode_raises_when_tilde_is_last _ [57]).
  - reflexivity.
  - repeat constructor. lia.
Defined.

(** Where the channel-digit numbers start with the codes of [}~~{], a marker
    with an empty length, [decode] raises [AssertionError]: [_translate_ASCII]
    asserts [_is_ASCII([]) == True], and [_is_ASCII([])] is [None]. *)
Theorem decode_raises_on_empty_length (g : Image.t) (rest : list Z) :
  hidden <$> Image.data g = 125 :: 126 :: 126 :: 123 :: rest →
  decode g = (Raise AssertionError, g).
Proof.
  intros Hcode. rewrite decode_on, Hcode. cbv zeta.
  assert (_isMarker (125 :: 126 :: 126 :: 123 :: rest) = Raise AssertionError)
    as Hmark.
  { unfold _isMarker. change (eq_False (_is_ASCII _)) with false. cbv iota.
    change (take 2 _) with [125; 126].
    rewrite bool_decide_eq_true_2 by done.
    change (negb true) with false. cbv iota.
    change (list_index (drop 2 (125 :: 126 :: 126 :: 123 :: rest)) 126)
      with (@Ok Z 0).
    change (Ok 0 ≫= ?k) with (k 0). cbv beta zeta.
    rewrite (py_getitem_lookup _ (0 + 2 + 1) 123) by done.
    change (Ok 123 ≫= ?k) with (k 123). cbv beta.
    change (negb (123 =? 123)) with false. cbv iota.
    change (py_slice (125 :: 126 :: 126 :: 123 :: rest) 2 (0 + 2))
      with (py_slice ([125; 126] ++ [] ++ 126 :: 123 :: rest)
                     (len [125; 126]) (len [125; 126] + len (@nil Z))).
    rewrite (py_slice_mid [125; 126] [] (126 :: 123 :: rest)).
    done. }
  unfold mbind, M_mbind, bind, lift. by rewrite Hmark.
Qed.

Lemma decode_raises_on_empty_length_witness :
  decode (strip [(1, 2, 5); (1, 2, 6); (1, 2, 6); (1, 2, 3)])
  = (Raise AssertionError, strip [(1, 2, 5); (1, 2, 6); (1, 2, 6); (1, 2, 3)]).
Proof.
  apply (decode_raises_on_empty_length _ []). reflexivity.
Defined.

Lemma chr_each_valid (l : list Z) :
  Forall (λ c, 0 ≤ c < 1114112) l → chr_each l = Ok l.
Proof.
  induction 1 as [|c l Hc _ IH]; simpl; [done|].
  unfold chr. destruct (Z.leb_spec 0 c), (Z.ltb_spec c 1114112); try lia.
  simpl. by rewrite IH.
Qed.

(** [_translate_ASCII] undoes [_text_to_ASCII] on a text that is not empty
    and whose first character has a code up to 255; on the empty text, or
    where the first code is above 255, it raises [AssertionError].  The
    codes after the first are not checked. *)
Theorem translate_undoes_text_to_ASCII (text : pystr) :
  Forall (λ c, 0 ≤ c < 1114112) text →
  _translate_ASCII (_text_to_ASCII text)
  = match text with
    | [] => Raise AssertionError
    | c :: _ => if c <=? 255 then Ok text else Raise AssertionError
    end.
Proof.
  intros Htext. rewrite text_to_ASCII_id. unfold _translate_ASCII.
  destruct text as [|c text]; [done|].
  pose proof (Forall_inv Htext) as Hc. simpl in Hc.
  simpl _is_ASCII. destruct (Z.leb_spec 0 c); [|lia].
  destruct (Z.leb_spec c 255); simpl; [|done].
  change (chr_each (c :: text) = Ok (c :: text)). by apply chr_each_valid.
Qed.

Lemma translate_undoes_text_to_ASCII_witness :
  _translate_ASCII (_text_to_ASCII [72; 960]) = Ok [72; 960].
Proof.
  apply (translate_undoes_text_to_ASCII [72; 960]).
  repeat constructor; lia.
Defined.

(** [decode] on an image whose channel-digit numbers start with the frame
    of a text of 1 to 999999 characters with codes in [0,255]. *)
Lemma decode_frame (s : Image.t) (text : pystr) (junk : list Z) :
  1 ≤ len text ≤ 999999 →
  Forall (λ c, 0 ≤ c ≤ 255) text →
  hidden <$> Image.data s
  = (marker_start ++ str_int (len text) ++ marker_end) ++ text ++ junk →
  decode s = (Ok (Some text), s).
Proof.
  intros Hlen Htext Hcode. set (n := len text) in *.
  set (marker := marker_start ++ str_int n ++ marker_end) in *.
  assert (len marker = 4 + len (str_int n)) as Hmarker.
  { unfold marker, len. rewrite !length_app. simpl. lia. }
  rewrite decode_on. cbv zeta. set (code := hidden <$> Image.data s) in *.
  assert (code = [125; 126] ++ str_int n ++ [126; 123] ++ text ++ junk) as Hshape.
  { rewrite Hcode. unfold marker, marker_start, marker_end.
    by rewrite <- !app_assoc. }
  destruct (marker_accepted n (text ++ junk) Hlen) as [Hmark Hlength].
  rewrite <- Hshape in Hmark, Hlength.
  rewrite (bind_lift_ok _ _ s true Hmark). change (negb true) with false. cbv iota.
  rewrite (bind_lift_ok _ _ s (PyInt n) Hlength).
  simpl py_str. simpl as_int.
  assert (py_slice code (4 + len (str_int n)) (4 + len (str_int n) + n) = text) as ->.
  { rewrite Hcode, <- Hmarker. apply py_slice_mid. }
  rewrite (bind_lift_ok _ _ s text); [done|].
  apply translate_ASCII_id; [|done].
  intros ->. unfold n, len in Hlen. simpl in Hlen. lia.
Qed.

(** A successful [encode]: the image stays well formed and its channel-digit
    numbers start with the frame. *)
Lemma encode_ok (g : Image.t) (text : pystr) :
  Image.wf g →
  len text ≤ 999999 →
  Forall (λ c, 0 ≤ c ≤ 255) text →
  4 + digitCount (len text) + len text ≤ Image.getLength g →
  ∃ g' junk, encode text g = (Ok true, g')
             ∧ Image.wf g'
             ∧ Image.getLength g' = Image.getLength g
             ∧ hidden <$> Image.data g'
               = (marker_start ++ str_int (len text) ++ marker_end) ++ text ++ junk.
Proof.
  intros (HW & HH & Hsize & Hpx) Hlen Htext Hfit.
  set (n := len text) in *.
  assert (0 ≤ n) as Hn by (unfold n, len; lia).
  destruct (marker_codes n Hn) as [Hmcodes Hmlen].
  set (marker := marker_start ++ str_int n ++ marker_end) in *.
  set (codes := marker ++ text).
  assert (len codes = 4 + digitCount n + n) as Hclen.
  { unfold codes, len in *. rewrite length_app, Nat2Z.inj_add, Hmlen.
    change (Z.of_nat (length text)) with n. lia. }
  assert (Forall (λ c, 0 ≤ c ≤ 255) codes) as Hcodes
    by (apply Forall_app; done).
  unfold Image.getLength in Hfit.
  destruct (ASCII_encode_prefix codes (len codes) g)
    as (g' & Hfor & Hw & Hh & Hl & Hpx' & Hdone & Hrest).
  { unfold len. lia. }
  { intros i c _ Hc. exact (Forall_lookup_1 _ _ _ _ Hcodes Hc). }
  { lia. }
  { done. }
  exists g', (drop (length codes) (hidden <$> Image.data g')).
  split; [|split; [|split]].
  - unfold encode. fold n.
    destruct (Z.ltb_spec 999999 n); [lia|].
    rewrite (bind_ok Current.getLength _ g (Image.getLength g) g) by done.
    unfold digitCount in Hfit.
    destruct (Z.ltb_spec (Image.getLength g) (len (str_int n) + 4 + n));
      [unfold Image.getLength in *; lia|].
    rewrite !text_to_ASCII_id. fold marker. fold codes.
    assert (_ASCII_encode codes g = (Ok tt, g')) as Henc.
    { unfold _ASCII_encode. rewrite (bind_lift_ok _ _ g tt) by done.
      unfold range. done. }
    by rewrite (bind_ok _ _ _ _ _ Henc).
  - unfold Image.wf, len in *. rewrite Hw, Hh, Hl. done.
  - unfold Image.getLength, len. by rewrite Hl.
  - rewrite app_assoc. fold codes. apply prefix_of_lookups.
    intros i c Hc. rewrite list_lookup_fmap.
    destruct (Hdone i c) as (p & Hp & Hp'); [|done|].
    { apply lookup_lt_Some in Hc. unfold len. lia. }
    rewrite Hp'. simpl. f_equal. apply hide_spec.
    + exact (Forall_lookup_1 _ _ _ _ Hpx Hp).
    + exact (Forall_lookup_1 _ _ _ _ Hcodes Hc).
Qed.

(** A second [encode] replaces the first message: after hiding one text and
    then another that is not empty, [decode] returns the second text. *)
Theorem encode_overwrites_previous (g : Image.t) (first second : pystr) :
  Image.wf g →
  len first ≤ 999999 → Forall (λ c, 0 ≤ c ≤ 255) first →
  4 + digitCount (len first) + len first ≤ Image.getLength g →
  1 ≤ len second ≤ 999999 → Forall (λ c, 0 ≤ c ≤ 255) second →
  4 + digitCount (len second) + len second ≤ Image.getLength g →
  ∃ g1 g2, encode first g = (Ok true, g1)
           ∧ encode second g1 = (Ok true, g2)
           ∧ decode g2 = (Ok (Some second), g2).
Proof.
  intros Hwf Hl1 Hc1 Hf1 Hl2 Hc2 Hf2.
  destruct (encode_ok g first Hwf Hl1 Hc1 Hf1) as (g1 & j1 & He1 & Hwf1 & Hn1 & _).
  destruct (encode_ok g1 second Hwf1 ltac:(lia) Hc2 ltac:(lia))
    as (g2 & j2 & He2 & Hwf2 & Hn2 & Hcode2).
  exists g1, g2. split; [done|]. split; [done|].
  by apply (decode_frame g2 second j2).
Qed.

Lemma encode_overwrites_previous_witness :
  ∃ g1 g2, encode [72; 105] ten_pixels = (Ok true, g1)
           ∧ encode [79; 75; 33] g1 = (Ok true, g2)
           ∧ decode g2 = (Ok (Some [79; 75; 33]), g2).
Proof.
  apply (encode_overwrites_previous ten_pixels [72; 105] [79; 75; 33]).
  - unfold Image.wf. simpl. repeat split; try lia. repeat constructor.
  - vm_compute. discriminate.
  - repeat constructor; lia.
  - vm_compute. discriminate.
  - vm_compute. split; discriminate.
  - repeat constructor; lia.
  - vm_compute. discriminate.
Defined.

(** [decode] reads nothing but the ones digits of the channels: two images
    with the same channel-digit numbers give the same result, whatever
    their dimensions and their higher digits. *)
Theorem decode_depends_on_ones_digits (g1 g2 : Image.t) :
  hidden <$> Image.data g1 = hidden <$> Image.data g2 →
  run decode g1 = run decode g2.
Proof.
  intros Heq. unfold run. rewrite !decode_on, Heq. cbv zeta.
  unfold mbind, M_mbind, bind, lift, ret.
  destruct (_isMarker (hidden <$> Image.data g2)) as [[|]|e]; simpl; [|done|done].
  destruct (_getLengthCode (hidden <$> Image.data g2)) as [v|e]; simpl; [|done].
  by destruct (_translate_ASCII _).
Qed.

Lemma decode_depends_on_ones_digits_witness :
  run decode (strip [(1, 2, 5); (1, 2, 6); (0, 5, 7)])
  = run decode (Image.mk 1 3 [(251, 12, 75); (91, 202, 16); (250, 255, 107)]).
Proof.
  apply decode_depends_on_ones_digits. reflexivity.
Defined.

(** * The claims on the channel digit, the round trip and the vignette *)

(** ** The channel digits that [_encode_pixel] leaves *)

(** C7.  For a valid pixel at [pos] and a code in [0,255], [_encode_pixel]
    succeeds, and of the pixel that it leaves at [pos] every channel carries
    its digit of the code (hundreds in red, tens in green, ones in blue) as
    ones digit, lies in [0,255], and keeps the tens-and-higher part of the
    old channel, except where the sum would pass 255: there it is lower by
    exactly 10 and the ones digit is still the digit.  Green and blue range
    over every channel value in [0,255] and every digit in [0,9]. *)
Theorem encode_pixel_channel_digits (s : Image.t) (pos ASCII r g b : Z) :
  0 ≤ pos → Image.data s !! Z.to_nat pos = Some (r, g, b) →
  Image.is_pixel (r, g, b) = true → 0 ≤ ASCII ≤ 255 →
  ∃ s' r' g' b',
    _encode_pixel pos ASCII s = (Ok tt, s')
    ∧ Image.data s' !! Z.to_nat pos = Some (r', g', b')
    ∧ digit_encoded r (ASCII / 100) r'
    ∧ digit_encoded g ((ASCII / 10) mod 10) g'
    ∧ digit_encoded b (ASCII mod 10) b'
    ∧ (r' mod 10) * 100 + (g' mod 10) * 10 + b' mod 10 = ASCII.
Proof.
  intros Hpos Hlook Hp Hc.
  pose proof (lookup_lt_Some _ _ _ Hlook) as Hlt.
  pose proof Hp as Hp'. simpl in Hp'.
  apply andb_prop in Hp' as [[Hr Hg]%andb_prop Hb].
  apply is_channel_inv in Hr, Hg, Hb.
  assert (0 ≤ ASCII / 100 ≤ 9) as Ha by (Z.div_mod_to_equations; lia).
  assert (0 ≤ (ASCII / 10) mod 10 ≤ 9) as Hb' by (Z.div_mod_to_equations; lia).
  assert (0 ≤ ASCII mod 10 ≤ 9) as Hc' by (Z.div_mod_to_equations; lia).
  exists (Image.write s pos (hide (r, g, b) ASCII)),
         (encode_channel r (ASCII / 100)),
         (encode_channel g ((ASCII / 10) mod 10)),
         (encode_channel b (ASCII mod 10)).
  split; [by apply encode_pixel_spec|].
  split; [by apply write_lookup_eq|].
  split; [exact (encode_channel_digit r _ Hr Ha)|].
  split; [exact (encode_channel_digit g _ Hg Hb')|].
  split; [exact (encode_channel_digit b _ Hb Hc')|].
  by destruct (hide_spec (r, g, b) ASCII Hp Hc) as [_ Hhidden].
Qed.

Lemma encode_pixel_channel_digits_witness :
  ∃ s' r' g' b',
    _encode_pixel 0 165 (strip [(199, 254, 247)]) = (Ok tt, s')
    ∧ Image.data s' !! Z.to_nat 0 = Some (r', g', b')
    ∧ digit_encoded 199 (165 / 100) r'
    ∧ digit_encoded 254 ((165 / 10) mod 10) g'
    ∧ digit_encoded 247 (165 mod 10) b'
    ∧ (r' mod 10) * 100 + (g' mod 10) * 10 + b' mod 10 = 165.
Proof.
  apply (encode_pixel_channel_digits (strip [(199, 254, 247)]) 0 165 199 254 247).
  - lia.
  - reflexivity.
  - reflexivity.
  - lia.
Defined.

(** ** Round trip *)

(** C1, as the code has it.  For a well-formed grid and a text of at most
    999999 characters, all with codes in [0,255], whose frame fits in the
    grid, [encode] returns [True] and keeps the dimensions; and where the
    text is not empty, [decode] on the resulting grid returns the text. *)
Theorem encode_decode_roundtrip (g : Image.t) (text : pystr) :
  Image.wf g →
  len text ≤ 999999 →
  Forall (λ c, 0 ≤ c ≤ 255) text →
  4 + digitCount (len text) + len text ≤ Image.getLength g →
  ∃ g', encode text g = (Ok true, g')
        ∧ Image.width g' = Image.width g ∧ Image.height g' = Image.height g
        ∧ (text ≠ [] → decode g' = (Ok (Some text), g')).
Proof.
  intros (_ & _ & _ & Hpx) Hlen Htext Hfit.
  set (n := len text) in *.
  assert (0 ≤ n) as Hn by (unfold n, len; lia).
  destruct (marker_codes n Hn) as [Hmcodes Hmlen].
  set (marker := marker_start ++ str_int n ++ marker_end) in *.
  set (codes := marker ++ text).
  assert (len codes = 4 + digitCount n + n) as Hclen.
  { unfold codes, len in *. rewrite length_app, Nat2Z.inj_add, Hmlen.
    change (Z.of_nat (length text)) with n. lia. }
  assert (Forall (λ c, 0 ≤ c ≤ 255) codes) as Hcodes
    by (apply Forall_app; done).
  unfold Image.getLength in Hfit.
  destruct (ASCII_encode_prefix codes (len codes) g)
    as (g' & Hfor & Hw & Hh & Hl & Hpx' & Hdone & Hrest).
  { unfold len. lia. }
  { intros i c _ Hc. exact (Forall_lookup_1 _ _ _ _ Hcodes Hc). }
  { lia. }
  { done. }
  exists g'. split; [|split; [done|split; [done|]]].
  - unfold encode. fold n.
    destruct (Z.ltb_spec 999999 n); [lia|].
    rewrite (bind_ok Current.getLength _ g (Image.getLength g) g) by done.
    unfold digitCount in Hfit.
    destruct (Z.ltb_spec (Image.getLength g) (len (str_int n) + 4 + n));
      [unfold Image.getLength in *; lia|].
    rewrite !text_to_ASCII_id. fold marker. fold codes.
    assert (_ASCII_encode codes g = (Ok tt, g')) as Henc.
    { unfold _ASCII_encode. rewrite (bind_lift_ok _ _ g tt) by done.
      unfold range. done. }
    by rewrite (bind_ok _ _ _ _ _ Henc).
  - intros Hne.
    apply (decode_frame g' text (drop (length codes) (hidden <$> Image.data g'))).
    + split; [|done]. unfold len. destruct text; [done|]. simpl. lia.
    + done.
    + rewrite app_assoc. fold n. fold marker. fold codes.
      apply prefix_of_lookups.
      intros i c Hc. rewrite list_lookup_fmap.
      destruct (Hdone i c) as (p & Hp & Hp'); [|done|].
      { apply lookup_lt_Some in Hc. unfold len. lia. }
      rewrite Hp'. simpl. f_equal. apply hide_spec.
      * exact (Forall_lookup_1 _ _ _ _ Hpx Hp).
      * exact (Forall_lookup_1 _ _ _ _ Hcodes Hc).
Qed.

Lemma encode_decode_roundtrip_witness :
  ∃ g', encode [72; 105] ten_pixels = (Ok true, g')
        ∧ Image.width g' = Image.width ten_pixels
        ∧ Image.height g' = Image.height ten_pixels
        ∧ ([72; 105] ≠ [] → decode g' = (Ok (Some [72; 105]), g')).
Proof.
  apply (encode_decode_roundtrip ten_pixels [72; 105]).
  - unfold Image.wf. simpl. repeat split; try lia. repeat constructor.
  - vm_compute. discriminate.
  - repeat constructor; lia.
  - vm_compute. discriminate.
Defined.

(** C1 as stated fails.  The text made of the one character U+0100 has
    length 1 and its frame of 6 characters fits in the ten pixels of a
    well-formed grid, yet [encode] does not return [True]: [_encode_pixel]
    rejects the code 256 with [AssertionError]. *)
Lemma roundtrip_fails_on_code_256 :
  Image.wfb ten_pixels = true
  ∧ len [256] ≤ 999999
  ∧ 4 + digitCount (len [256]) + len [256] ≤ Image.getLength ten_pixels
  ∧ run (encode [256]) ten_pixels = Raise AssertionError
  ∧ run (encode [256]) ten_pixels ≠ Ok true.
Proof. vm_compute. repeat split; (reflexivity || discriminate). Qed.

(** ** The corner of the vignette *)


(** On a white grid one column by five rows, with [x ** 0.5] as the rounded
    square root, the factor at the corner is below zero by one rounding
    step, and the corner pixel comes out as (0,0,0): [int] truncates the
    tiny negative products to 0. *)
Lemma vignette_factor_below_zero :
  PrimFloat.ltb (darkening_factor 1 5 0 0) 0%float = true
  ∧ run vignette (plain 1 5 (255, 255, 255)) = Ok tt
  ∧ Image.getPixel (exec vignette (plain 1 5 (255, 255, 255))) 0 0
    = Ok (int_of_float (PrimFloat.mul (float_of_int 255) (darkening_factor 1 5 0 0)),
          int_of_float (PrimFloat.mul (float_of_int 255) (darkening_factor 1 5 0 0)),
          int_of_float (PrimFloat.mul (float_of_int 255) (darkening_factor 1 5 0 0)))
  ∧ Image.getPixel (exec vignette (plain 1 5 (255, 255, 255))) 0 0 = Ok (0, 0, 0).
Proof. vm_compute. repeat split; reflexivity. Qed.
